(** * ATS resume checker: text normalisation, keyword extraction, match score

    Shallow embedding of the core of [main.py] ([preprocess_text],
    [get_keywords], [calculate_match_score]) together with the pieces of the
    Python runtime these three functions rely on: [str] methods, [re.sub],
    [collections.Counter], [sorted], slicing, and binary64 arithmetic. *)

From Stdlib Require Import ZArith QArith Qround Qpower Qabs Lqa Lia.
From Stdlib Require Import String Ascii List.
From Stdlib Require Import Uint63 PrimFloat FloatOps SpecFloat.
From stdpp Require Import gmap strings list sorting pretty.

#[local] Set Warnings "-clear-no-such-hyp".

(** ** Python floats

    A finite, non-negative binary64 value is represented by the rational
    number it denotes.  Every arithmetic operation computes the exact
    rational result and rounds it to the nearest binary64 value, ties to
    even, which is what IEEE 754 prescribes and what CPython does for
    [int / int], [float * int] and [round(x, ndigits)].  Only values in
    [0, 100] arise in the program, so overflow and signs are not modelled. *)
Module Float64.
Local Open Scope Q_scope.

(** Nearest integer, ties to the even one. *)
Definition rne (x : Q) : Z :=
  let f := Qfloor x in
  match Qcompare (x - inject_Z f) (1 # 2) with
  | Lt => f
  | Gt => (f + 1)%Z
  | Eq => if Z.even f then f else (f + 1)%Z
  end.

(** [ilog2 x] is the integer [l] with [2^l <= x < 2^(l+1)], for [0 < x]. *)
Definition ilog2 (x : Q) : Z :=
  let d := (Z.log2 (Qnum x) - Z.log2 (Z.pos (Qden x)))%Z in
  if Qle_bool (2 ^ d) x then d else (d - 1)%Z.

(** Exponent of the unit in the last place of the binade of [x]: 53 bits of
    precision, and the subnormal spacing [2^-1074] below [2^-1022]. *)
Definition ulp_exp (x : Q) : Z := Z.max (ilog2 x - 52) (-1074).

(** Round to nearest binary64, ties to even. *)
Definition round (x : Q) : Q :=
  if Qle_bool x 0 then 0
  else let e := ulp_exp x in Qred (inject_Z (rne (x / 2 ^ e)) * 2 ^ e).

(** The float denoted by a decimal literal such as [66.67]. *)
Definition literal (q : Q) : Q := round q.

(** [float(n)] for an integer. *)
Definition of_int (n : Z) : Q := round (inject_Z n).

(** [x * y] on floats. *)
Definition mul (x y : Q) : Q := round (x * y).

(** [a / b] on Python ints, for [b <> 0]: the correctly rounded quotient. *)
Definition div_int (a b : Z) : Q := round (inject_Z a / inject_Z b).

(** [round(x, ndigits)]: the decimal with [ndigits] fractional digits nearest
    to the exact value of [x] (ties to even), converted back to a float. *)
Definition round_ndigits (x : Q) (ndigits : Z) : Q :=
  round (inject_Z (rne (x * 10 ^ ndigits)) / 10 ^ ndigits).

End Float64.


(** ** Exceptions

    Python code either returns a value or raises.  The two exceptions that
    can arise in the modelled functions are the one of a division by zero and
    whatever the NLTK tokenizer raises (a [LookupError] when its data is
    missing). *)
Inductive exception : Set := ZeroDivisionError | LookupError.

Inductive result (A : Type) : Type :=
| Ok (a : A)
| Raise (e : exception).
Arguments Ok {A} a.
Arguments Raise {A} e.

#[global] Instance result_ret : MRet result := @Ok.
#[global] Instance result_bind : MBind result := λ A B f m,
  match m with Ok a => f a | Raise e => Raise e end.

(** [try: m except Exception: handler]. *)
Definition try_except {A} (m handler : result A) : result A :=
  match m with Ok a => Ok a | Raise _ => handler end.

(** ** Python strings

    A [str] is a sequence of code points; the model covers the code points
    below 256 (ASCII and Latin-1), which [ascii] enumerates.  The character
    classes below are those of CPython's Unicode database restricted to that
    range. *)
Module Str.

Definition ord (c : ascii) : N := N_of_ascii c.

Definition between (lo hi : N) (c : ascii) : bool :=
  ((lo <=? ord c) && (ord c <=? hi))%N.

(** [c.isspace()], which is also the class [\s] of [re] and the separator set
    of [str.split()]. *)
Definition char_isspace (c : ascii) : bool :=
  between 9 13 c || between 28 32 c || between 133 133 c || between 160 160 c.

(** [c.isdigit()]: the decimal digits and the superscripts 1, 2, 3. *)
Definition char_isdigit (c : ascii) : bool :=
  between 48 57 c || between 178 179 c || between 185 185 c.

(** The class [\w] of [re]: alphanumeric code points and the underscore. *)
Definition char_isword (c : ascii) : bool :=
  between 48 57 c || between 65 90 c || between 95 95 c || between 97 122 c
  || between 170 170 c || between 178 179 c || between 181 181 c
  || between 185 186 c || between 188 190 c || between 192 214 c
  || between 216 246 c || between 248 255 c.

(** [c.lower()]. *)
Definition char_lower (c : ascii) : ascii :=
  if between 65 90 c || between 192 214 c || between 216 222 c
  then ascii_of_N (ord c + 32) else c.

(** [s.lower()]. *)
Fixpoint lower (s : string) : string :=
  match s with
  | EmptyString => EmptyString
  | String c s' => String (char_lower c) (lower s')
  end.

(** [re.sub(r'[^\w\s]', '', s)]: drop every character that is neither a word
    character nor white space. *)
Fixpoint strip_punctuation (s : string) : string :=
  match s with
  | EmptyString => EmptyString
  | String c s' =>
      if char_isword c || char_isspace c then String c (strip_punctuation s')
      else strip_punctuation s'
  end.

(** [s.split()]: the maximal runs of characters that are not white space. *)
Fixpoint split (s : string) : list string :=
  match s with
  | EmptyString => []
  | String c s' =>
      if char_isspace c then split s'
      else match s' with
           | EmptyString => [String c EmptyString]
           | String c' _ =>
               if char_isspace c' then String c EmptyString :: split s'
               else match split s' with
                    | [] => [String c EmptyString]
                    | t :: ts => String c t :: ts
                    end
           end
  end.

Fixpoint forallb (p : ascii → bool) (s : string) : bool :=
  match s with
  | EmptyString => true
  | String c s' => p c && forallb p s'
  end.

(** [s.isdigit()]: at least one character, and all of them digits. *)
Definition isdigit (s : string) : bool :=
  match s with
  | EmptyString => false
  | String _ _ => forallb char_isdigit s
  end.

(** [len(s)]. *)
Definition len (s : string) : nat := String.length s.

End Str.

(** ** Lists: [sorted], slices *)

(** Insertion of [x] in a list sorted by descending key, before the first
    element whose key is not greater: an element inserted later (coming
    earlier in the input) precedes its equals, so the sort is stable. *)
Fixpoint insert_desc {A} (key : A → nat) (x : A) (l : list A) : list A :=
  match l with
  | [] => [x]
  | y :: l' => if key x <? key y then y :: insert_desc key x l' else x :: l
  end.

(** [sorted(l, key=key, reverse=True)]: stable, descending by key. *)
Definition sorted_desc {A} (key : A → nat) (l : list A) : list A :=
  foldr (insert_desc key) [] l.

(** [l[:n]]: the first [n] elements, or all but the last [-n] for [n < 0]. *)
Definition slice_to {A} (l : list A) (n : Z) : list A :=
  if (0 <=? n)%Z then take (Z.to_nat n) l
  else take (length l - Z.to_nat (- n)) l.

(** ** [collections.Counter]

    A counter is a [dict]: its items are kept in the order in which the keys
    were first inserted. *)
Definition counter : Type := list (string * nat).

Fixpoint counter_incr (w : string) (c : counter) : counter :=
  match c with
  | [] => [(w, 1)]
  | (k, n) :: c' =>
      if String.eqb k w then (k, S n) :: c' else (k, n) :: counter_incr w c'
  end.

(** [Counter(l)]. *)
Definition Counter (l : list string) : counter :=
  fold_left (λ c w, counter_incr w c) l [].

(** [c[w]], which is [0] for a missing key. *)
Fixpoint counter_get (c : counter) (w : string) : nat :=
  match c with
  | [] => 0
  | (k, n) :: c' => if String.eqb k w then n else counter_get c' w
  end.

(** [c.keys()]. *)
Definition counter_keys (c : counter) : list string := c.*1.

(** [heapq.nlargest(n, l, key)]: nothing for [n <= 0], otherwise the first [n]
    elements of the stable descending sort. *)
Definition nlargest {A} (n : Z) (key : A → nat) (l : list A) : list A :=
  if (n <=? 0)%Z then [] else take (Z.to_nat n) (sorted_desc key l).

(** [c.most_common(n)]. *)
Definition most_common (c : counter) (n : Z) : list (string * nat) :=
  nlargest n snd c.

(** ** Python sets

    A [set] of strings is a finite set; the order in which a set is iterated
    is decided by the interpreter (it depends on the string hashes, which
    CPython salts per process), so it is an interface of which only one fact
    is known: every element is visited once. *)
Class SetOrder : Type := {
  set_iter : gset string → list string;
  set_iter_perm : ∀ X, set_iter X ≡ₚ elements X
}.

(** ** The NLTK resources of the module

    [download_nltk_resources] either finds the stopword corpus and the
    tokenizer or it does not; the module globals are set accordingly. *)
Record nltk : Type := {
  stopwords_english : list string;
  nltk_word_tokenize : string → result (list string)
}.

Inductive resources : Type :=
| Ready (lib : nltk)
| Missing.

Definition NLTK_RESOURCES_READY (r : resources) : bool :=
  match r with Ready _ => true | Missing => false end.

Definition STOP_WORDS (r : resources) : gset string :=
  match r with
  | Ready lib => list_to_set (stopwords_english lib)
  | Missing => ∅
  end.

Definition word_tokenize (r : resources) (text : string) : result (list string) :=
  match r with
  | Ready lib => nltk_word_tokenize lib text
  | Missing => Ok (match text with EmptyString => [] | _ => Str.split text end)
  end.

(** ** The three functions of the core *)

(** The condition of the list comprehension of [preprocess_text]. *)
Definition keep_token (stop : gset string) (word : string) : Prop :=
  (word ∉ stop) ∧ (1 < Str.len word ∨ Str.isdigit word).

#[global] Instance keep_token_dec stop word : Decision (keep_token stop word) :=
  and_dec (not_dec (decide (word ∈ stop)))
          (or_dec (decide (1 < Str.len word)) (decide (Str.isdigit word))).

Definition preprocess_text (env : resources) (text : option string)
  : result (list string) :=
  match text with
  | None | Some EmptyString => Ok []
  | Some text =>
      if negb (NLTK_RESOURCES_READY env) then
        let text := Str.lower text in
        let text := Str.strip_punctuation text in
        let tokens := Str.split text in
        Ok (filter (keep_token (STOP_WORDS env)) tokens)
      else
        let text := Str.lower text in
        let text := Str.strip_punctuation text in
        tokens ← try_except (word_tokenize env text) (Ok (Str.split text));
        Ok (filter (keep_token (STOP_WORDS env)) tokens)
  end.

(** [a / b] on ints. *)
Definition truediv (a b : Z) : result Q :=
  if (b =? 0)%Z then Raise ZeroDivisionError else Ok (Float64.div_int a b).

(** [sorted(s, key=lambda x: c[x], reverse=True)] for a set [s]. *)
Definition ranking `{SetOrder} (c : counter) (s : gset string) : list string :=
  sorted_desc (counter_get c) (set_iter s).

(** [set(sorted(s, key=lambda x: c[x], reverse=True)[:top_n])]. *)
Definition top_keywords `{SetOrder} (c : counter) (top_n : Z) (s : gset string)
  : gset string :=
  list_to_set (slice_to (ranking c s) top_n).

Definition calculate_match_score `{SetOrder}
    (resume_tokens jd_keywords : list string) (min_freq top_n : Z)
  : result (Q * gset string * gset string) :=
  if bool_decide (resume_tokens = []) || bool_decide (jd_keywords = [])
  then Ok (0%Q, ∅, ∅)
  else
    let resume_counter := Counter resume_tokens in
    let jd_keywords_filtered : gset string :=
      list_to_set
        (filter (λ item, (min_freq ≤ Z.of_nat item.2)%Z) (Counter jd_keywords)).*1 in
    let matched_keywords :=
      jd_keywords_filtered ∩ list_to_set (counter_keys resume_counter) in
    let missing_keywords := jd_keywords_filtered ∖ matched_keywords in
    score ←
      (if bool_decide (jd_keywords_filtered ≠ ∅) then
         ratio ← truediv (Z.of_nat (size matched_keywords))
                         (Z.of_nat (size jd_keywords_filtered));
         Ok (Float64.mul ratio (Float64.of_int 100))
       else Ok 0%Q);
    let '(matched_keywords, missing_keywords) :=
      if bool_decide (0 < top_n)%Z
      then (top_keywords resume_counter top_n matched_keywords,
            top_keywords resume_counter top_n missing_keywords)
      else (matched_keywords, missing_keywords) in
    Ok (Float64.round_ndigits score 2, matched_keywords, missing_keywords).

Definition get_keywords (env : resources) (text : option string)
    (min_freq top_n : Z) : result (list string) :=
  tokens ← preprocess_text env text;
  if bool_decide (tokens = []) then Ok []
  else
    let counts := Counter tokens in
    let keywords :=
      (filter (λ item, (min_freq ≤ Z.of_nat item.2)%Z ∧ ¬ Str.isdigit item.1)
              (most_common counts (top_n * 2))).*1 in
    Ok (slice_to keywords top_n).

(** ** The sets and the score as the specification words them *)

(** Number of occurrences of [w] in [l]. *)
Definition count (w : string) (l : list string) : nat :=
  length (filter (λ x, x = w) l).

(** The distinct keywords whose count within [jd_keywords] reaches
    [min_freq]. *)
Definition spec_filtered (jd_keywords : list string) (min_freq : Z) : gset string :=
  list_to_set (filter (λ w, (min_freq ≤ Z.of_nat (count w jd_keywords))%Z) jd_keywords).

(** The filtered keywords present among the resume tokens. *)
Definition spec_matched (resume_tokens jd_keywords : list string) (min_freq : Z)
  : gset string :=
  spec_filtered jd_keywords min_freq ∩ list_to_set resume_tokens.

(** The filtered keywords that are not matched. *)
Definition spec_missing (resume_tokens jd_keywords : list string) (min_freq : Z)
  : gset string :=
  spec_filtered jd_keywords min_freq ∖ spec_matched resume_tokens jd_keywords min_freq.

(** [round((matched / total) * 100, 2)] in binary64 arithmetic. *)
Definition score_of (matched total : nat) : Q :=
  Float64.round_ndigits
    (Float64.mul (Float64.div_int (Z.of_nat matched) (Z.of_nat total))
                 (Float64.of_int 100)) 2.

(** ** Hardware floats

    Rocq's primitive floats are binary64 numbers computed by the machine.
    They serve to cross-check [Float64] on examples: the score is computed
    once more with the machine's division and multiplication, the decimal
    rounding of [round(x, 2)] being done exactly and its result converted
    back by a machine division. *)
Module Hardware.

(** The rational denoted by a finite non-negative float. *)
Definition to_Q (f : float) : option Q :=
  match Prim2SF f with
  | S754_zero _ => Some 0%Q
  | S754_finite false m e => Some (Qred (inject_Z (Z.pos m) * 2 ^ e))
  | _ => None
  end.

Definition of_int (n : Z) : float := PrimFloat.of_uint63 (Uint63.of_Z n).

Definition score (matched total : Z) : option Q :=
  match to_Q (PrimFloat.mul (PrimFloat.div (of_int matched) (of_int total))
                            (of_int 100)) with
  | Some x => to_Q (PrimFloat.div (of_int (Float64.rne (x * 100))) (of_int 100))
  | None => None
  end.

(** [score_of] and the machine agree on [matched] out of [total]. *)
Definition agrees (matched total : nat) : bool :=
  match score (Z.of_nat matched) (Z.of_nat total) with
  | Some q => Qeq_bool q (score_of matched total)
  | None => false
  end.

(** They agree on every [matched <= total] for [1 <= total <= bound]. *)
Definition agrees_upto (bound : nat) : bool :=
  forallb (λ total, forallb (λ matched, agrees matched total) (seq 0 (S total)))
          (seq 1 bound).

End Hardware.

(** The sets [calculate_match_score] returns for non-empty inputs: the whole
    set, or its [top_n] first keywords in the ranking when [0 < top_n]. *)
Definition capped `{SetOrder} (resume_tokens : list string) (top_n : Z)
    (s : gset string) : gset string :=
  if bool_decide (0 < top_n)%Z
  then top_keywords (Counter resume_tokens) top_n s else s.

(** Descending order of keys. *)
Definition desc {A} (key : A → nat) : relation A := λ x y, key y ≤ key x.

(** A string is lower case when [lower] leaves it unchanged. *)
Definition is_lower (s : string) : Prop := Str.lower s = s.

(** What is assumed of the NLTK tokenizer where lower case matters: given a
    lower-case text, it produces lower-case tokens (it cuts the text, and it
    inserts nothing but quote marks). *)
Definition case_preserving (env : resources) : Prop :=
  match env with
  | Ready lib =>
      ∀ text tokens, is_lower text → nltk_word_tokenize lib text = Ok tokens →
                     Forall is_lower tokens
  | Missing => True
  end.

(** ** Instances used to evaluate the model *)

(** Two iteration orders: the one of [elements], and its reverse. *)
Definition forward_order : SetOrder :=
  {| set_iter := elements; set_iter_perm := λ X, reflexivity (elements X) |}.

Definition backward_order : SetOrder :=
  {| set_iter := λ X, reverse (elements X);
     set_iter_perm := λ X, reverse_Permutation (elements X) |}.

Local Open Scope string_scope.

(** [n] distinct keywords: [k0], [k1], ... *)
Definition many_keywords (n : nat) : list string :=
  (λ i : nat, "k" +:+ pretty i) <$> seq 0 n.

(** The English stop words of the NLTK corpus. *)
Definition english_stopwords : list string :=
  ["i"; "me"; "my"; "myself"; "we"; "our"; "ours"; "ourselves"; "you"; "you're";
   "you've"; "you'll"; "you'd"; "your"; "yours"; "yourself"; "yourselves"; "he";
   "him"; "his"; "himself"; "she"; "she's"; "her"; "hers"; "herself"; "it";
   "it's"; "its"; "itself"; "they"; "them"; "their"; "theirs"; "themselves";
   "what"; "which"; "who"; "whom"; "this"; "that"; "that'll"; "these"; "those";
   "am"; "is"; "are"; "was"; "were"; "be"; "been"; "being"; "have"; "has"; "had";
   "having"; "do"; "does"; "did"; "doing"; "a"; "an"; "the"; "and"; "but"; "if";
   "or"; "because"; "as"; "until"; "while"; "of"; "at"; "by"; "for"; "with";
   "about"; "against"; "between"; "into"; "through"; "during"; "before"; "after";
   "above"; "below"; "to"; "from"; "up"; "down"; "in"; "out"; "on"; "off"; "over";
   "under"; "again"; "further"; "then"; "once"; "here"; "there"; "when"; "where";
   "why"; "how"; "all"; "any"; "both"; "each"; "few"; "more"; "most"; "other";
   "some"; "such"; "no"; "nor"; "not"; "only"; "own"; "same"; "so"; "than"; "too";
   "very"; "s"; "t"; "can"; "will"; "just"; "don"; "don't"; "should"; "should've";
   "now"; "d"; "ll"; "m"; "o"; "re"; "ve"; "y"; "ain"; "aren"; "aren't"; "couldn";
   "couldn't"; "didn"; "didn't"; "doesn"; "doesn't"; "hadn"; "hadn't"; "hasn";
   "hasn't"; "haven"; "haven't"; "isn"; "isn't"; "ma"; "mightn"; "mightn't";
   "mustn"; "mustn't"; "needn"; "needn't"; "shan"; "shan't"; "shouldn";
   "shouldn't"; "wasn"; "wasn't"; "weren"; "weren't"; "won"; "won't"; "wouldn";
   "wouldn't"].

(** NLTK with a tokenizer that cuts at white space, which is what
    [word_tokenize] does on text without punctuation or contractions. *)
Definition english_nltk : nltk :=
  {| stopwords_english := english_stopwords;
     nltk_word_tokenize := λ text, Ok (Str.split text) |}.

Local Close Scope string_scope.

(** ** The rest of the module

    The resource check that runs when the module is loaded, the text of a PDF
    file, and the handler of the analysis button from the point where the two
    texts are known. *)

(** What [nltk.data.find] does: it returns, raises [LookupError], or raises
    something else. *)
Inductive find_outcome : Set := Found | NotFound | FindFailed.

(** The NLTK data directory, as [download_nltk_resources] uses it: [W] is its
    state, [data_find path] looks a resource up, [data_download name] fetches
    one, changing the state, and says whether it returned ([true]) or raised. *)
Record nltk_data (W : Type) : Type := {
  data_find : string → W → find_outcome;
  data_download : string → W → W * bool
}.
Arguments data_find {W} _ _ _.
Arguments data_download {W} _ _ _.

(** The lines printed on the console, without the text of the exceptions. *)
Inductive console_line : Set :=
| LogHeader
| LogAvailable (name : string)
| LogNotFound (name : string)
| LogDownloaded (name : string)
| LogDownloadFailed (name : string)
| LogUnexpected (name : string)
| LogStatusMissing
| LogStatusReady
| LogFooter.

(** The messages shown in the page: [st.error] for a resource, in its two
    wordings, and the final [st.warning]. *)
Inductive ui_message : Set :=
| UiResourceUnavailable (name : string)
| UiUnexpectedError (name : string)
| UiFunctionalityLimited.

Record check_state (W : Type) : Type := {
  cs_data : W;
  cs_console : list console_line;
  cs_ui : list ui_message;
  all_resources_ready : bool
}.
Arguments cs_data {W} _.
Arguments cs_console {W} _.
Arguments cs_ui {W} _.
Arguments all_resources_ready {W} _.

(** The dictionary [resources_to_check], in insertion order. *)
Definition resources_to_check : list (string * string) :=
  [("stopwords", "corpora/stopwords.zip"); ("punkt", "tokenizers/punkt")]%string.

(** One iteration of the loop of [download_nltk_resources]. *)
Definition check_resource {W} (store : nltk_data W) (st : check_state W)
    (resource : string * string) : check_state W :=
  let '(resource_name, resource_path_fragment) := resource in
  match data_find store resource_path_fragment (cs_data st) with
  | Found =>
      {| cs_data := cs_data st;
         cs_console := cs_console st ++ [LogAvailable resource_name];
         cs_ui := cs_ui st;
         all_resources_ready := all_resources_ready st |}
  | NotFound =>
      let console := cs_console st ++ [LogNotFound resource_name] in
      let '(data, returned) := data_download store resource_name (cs_data st) in
      match returned, data_find store resource_path_fragment data with
      | true, Found =>
          {| cs_data := data;
             cs_console := console ++ [LogDownloaded resource_name];
             cs_ui := cs_ui st;
             all_resources_ready := all_resources_ready st |}
      | _, _ =>
          {| cs_data := data;
             cs_console := console ++ [LogDownloadFailed resource_name];
             cs_ui := cs_ui st ++ [UiResourceUnavailable resource_name];
             all_resources_ready := false |}
      end
  | FindFailed =>
      {| cs_data := cs_data st;
         cs_console := cs_console st ++ [LogUnexpected resource_name];
         cs_ui := cs_ui st ++ [UiUnexpectedError resource_name];
         all_resources_ready := false |}
  end.

Definition download_nltk_resources {W} (store : nltk_data W) (data : W)
  : check_state W :=
  let st := {| cs_data := data; cs_console := [LogHeader]; cs_ui := [];
               all_resources_ready := true |} in
  let st := fold_left (check_resource store) resources_to_check st in
  if negb (all_resources_ready st) then
    {| cs_data := cs_data st;
       cs_console := cs_console st ++ [LogStatusMissing; LogFooter];
       cs_ui := cs_ui st ++ [UiFunctionalityLimited];
       all_resources_ready := all_resources_ready st |}
  else
    {| cs_data := cs_data st;
       cs_console := cs_console st ++ [LogStatusReady; LogFooter];
       cs_ui := cs_ui st;
       all_resources_ready := all_resources_ready st |}.

(** The module globals after the check: NLTK's stopwords and tokenizer when it
    succeeded, the fallbacks otherwise. *)
Definition module_resources {W} (store : nltk_data W) (data : W) (lib : nltk)
  : resources :=
  if all_resources_ready (download_nltk_resources store data) then Ready lib
  else Missing.

(** [sep.join(l)]. *)
Fixpoint str_join (sep : string) (l : list string) : string :=
  match l with
  | [] => EmptyString
  | s :: l' =>
      match l' with
      | [] => s
      | _ :: _ => s +:+ sep +:+ str_join sep l'
      end
  end.

(** [extract_text_from_pdf]: the pages are given by what [extract_text]
    returns for each, [None] included. *)
Definition extract_text_from_pdf (pages : list (option string)) : string :=
  str_join " " ((λ page_text, default EmptyString page_text) <$> pages).

(** Where the handler of the analysis button calls [st.stop()]. *)
Inductive stop_reason : Set :=
| ResourcesUnavailable
| JobDescriptionMissing
| ResumeTextEmpty
| NoKeywords
| NoTokens.

Inductive analysis : Type :=
| Stopped (why : stop_reason)
| Analysed (score : Q) (matched missing : gset string)
           (jd_keywords_extracted resume_tokens_processed : list string).

(** The handler, once [resume_text] has been read from the upload or the
    text area. *)
Definition analyze `{SetOrder} (env : resources) (jd_text resume_text : string)
  : result analysis :=
  if negb (NLTK_RESOURCES_READY env) then Ok (Stopped ResourcesUnavailable)
  else match jd_text, resume_text with
  | EmptyString, _ => Ok (Stopped JobDescriptionMissing)
  | _, EmptyString => Ok (Stopped ResumeTextEmpty)
  | _, _ =>
      jd_keywords_extracted ← get_keywords env (Some jd_text) 1 75;
      resume_tokens_processed ← preprocess_text env (Some resume_text);
      if bool_decide (jd_keywords_extracted = []) then Ok (Stopped NoKeywords)
      else if bool_decide (resume_tokens_processed = []) then Ok (Stopped NoTokens)
      else
        '(score, matched, missing) ←
          calculate_match_score resume_tokens_processed jd_keywords_extracted 1 75;
        Ok (Analysed score matched missing
                     jd_keywords_extracted resume_tokens_processed)
  end.

(** The message shown under the score. *)
Inductive verdict : Set := LowerMatch | GoodMatch | ExcellentMatch.

Definition score_verdict (score : Q) : verdict :=
  if negb (Qle_bool 50 score) then LowerMatch
  else if negb (Qle_bool 75 score) then GoodMatch
  else ExcellentMatch.

(** ** Vocabulary of the further properties *)

(** [a] occurs in [l] at a place before which [b] does not occur. *)
Definition first_before (a b : string) (l : list string) : Prop :=
  a ≠ b ∧ ∃ pre post, l = pre ++ a :: post ∧ (b ∉ pre).

(** The order of the result of [get_keywords]: a higher count first, and the
    earlier first occurrence first among equal counts. *)
Definition ranks_before (tokens : list string) (a b : string) : Prop :=
  count b tokens < count a tokens
  ∨ (count a tokens = count b tokens ∧ first_before a b tokens).

(** [x] stands before [y] in [l]. *)
Definition precedes {A} (x y : A) (l : list A) : Prop :=
  ∃ l1 l2 l3, l = l1 ++ x :: l2 ++ y :: l3.

(** The distinct elements of [l] in the order of their first occurrence. *)
Fixpoint first_seen (l : list string) : list string :=
  match l with
  | [] => []
  | x :: l' => x :: filter (λ y, y ≠ x) (first_seen l')
  end.

(** * Properties *)

(** ** Binary64 rounding *)

Section float64_facts.
Import Float64.
Local Open Scope Q_scope.

Lemma rne_floor x : rne x = Qfloor x ∨ rne x = (Qfloor x + 1)%Z.
Proof.
  unfold rne. destruct (Qcompare_spec (x - inject_Z (Qfloor x)) (1 # 2)); auto.
  destruct (Z.even _); auto.
Qed.

Lemma rne_lower x : x - (1 # 2) <= inject_Z (rne x).
Proof.
  pose proof (Qfloor_le x) as Hf. pose proof (Qlt_floor x) as Hc.
  rewrite inject_Z_plus in Hc.
  unfold rne. destruct (Qcompare_spec (x - inject_Z (Qfloor x)) (1 # 2)) as [E|E|E];
    [destruct (Z.even _)|..]; rewrite ?inject_Z_plus; change (inject_Z 1) with 1 in *; lra.
Qed.

Lemma rne_upper x : inject_Z (rne x) <= x + (1 # 2).
Proof.
  pose proof (Qfloor_le x) as Hf. pose proof (Qlt_floor x) as Hc.
  rewrite inject_Z_plus in Hc.
  unfold rne. destruct (Qcompare_spec (x - inject_Z (Qfloor x)) (1 # 2)) as [E|E|E];
    [destruct (Z.even _)|..]; rewrite ?inject_Z_plus; change (inject_Z 1) with 1 in *; lra.
Qed.

Lemma rne_mono x y : x <= y → (rne x <= rne y)%Z.
Proof.
  intros Hxy. pose proof (Qfloor_resp_le _ _ Hxy) as Hf.
  destruct (Z.eq_dec (Qfloor x) (Qfloor y)) as [E|NE].
  - unfold rne. rewrite <- E.
    destruct (Qcompare_spec (x - inject_Z (Qfloor x)) (1 # 2)) as [E1|E1|E1];
    destruct (Qcompare_spec (y - inject_Z (Qfloor x)) (1 # 2)) as [E2|E2|E2];
    try destruct (Z.even _); try lia; exfalso; lra.
  - destruct (rne_floor x) as [-> | ->]; destruct (rne_floor y) as [-> | ->]; lia.
Qed.

Lemma rne_Z z : rne (inject_Z z) = z.
Proof.
  unfold rne. rewrite Qfloor_Z.
  destruct (Qcompare_spec (inject_Z z - inject_Z z) (1 # 2)) as [E|E|E]; try done; exfalso; lra.
Qed.

Lemma pow2_pos e : 0 < 2 ^ e.
Proof. apply Qpower_0_lt. reflexivity. Qed.

Lemma pow2_add a b : 2 ^ (a + b) == 2 ^ a * 2 ^ b.
Proof. apply Qpower_plus. discriminate. Qed.

Lemma pow2_le a b : (a <= b)%Z → 2 ^ a <= 2 ^ b.
Proof. intros. apply Qpower_le_compat_l; [done | discriminate]. Qed.

Lemma pow2_lt_inv a b : 2 ^ a < 2 ^ b → (a < b)%Z.
Proof. intros. eapply Qpower_lt_compat_l_inv; [done | reflexivity]. Qed.

Lemma pow2_log2 (p : Z) :
  (0 < p)%Z → 2 ^ Z.log2 p <= inject_Z p ∧ inject_Z p < 2 ^ (Z.log2 p + 1).
Proof.
  intros Hp. destruct (Z.log2_spec p Hp) as [H1 H2].
  pose proof (Z.log2_nonneg p) as Hn.
  change 2 with (inject_Z 2). rewrite <- !Zpower_Qpower by lia.
  rewrite <- Zle_Qle, <- Zlt_Qlt. replace (Z.log2 p + 1)%Z with (Z.succ (Z.log2 p)) by lia.
  done.
Qed.

Lemma ilog2_spec x : 0 < x → 2 ^ ilog2 x <= x ∧ x < 2 ^ (ilog2 x + 1).
Proof.
  intros Hx. destruct x as [p q]. 
  assert (Hp : (0 < p)%Z) by (unfold Qlt in Hx; simpl in Hx; lia).
  unfold ilog2. cbn [Qnum Qden].
  set (lp := Z.log2 p). set (lq := Z.log2 (Z.pos q)). set (d := (lp - lq)%Z).
  destruct (pow2_log2 p Hp) as [Hp1 Hp2]. fold lp in Hp1, Hp2.
  destruct (pow2_log2 (Z.pos q) eq_refl) as [Hq1 Hq2]. fold lq in Hq1, Hq2.
  assert (HX : (p # q) * inject_Z (Z.pos q) == inject_Z p).
  { rewrite (Qmake_Qdiv p q). field. discriminate. }
  pose proof (pow2_pos lq) as Pq. pose proof (pow2_pos d) as Pd.
  pose proof (pow2_pos (d - 1)) as Pd1. pose proof (pow2_pos (d + 1)) as Pd2.
  assert (E1 : 2 ^ (d + 1) * 2 ^ lq == 2 ^ (lp + 1)).
  { rewrite <- pow2_add. replace (d + 1 + lq)%Z with (lp + 1)%Z by lia. reflexivity. }
  assert (E2 : 2 ^ (d - 1) * 2 ^ (lq + 1) == 2 ^ lp).
  { rewrite <- pow2_add. replace (d - 1 + (lq + 1))%Z with lp by lia. reflexivity. }
  assert (E3 : 2 ^ (d - 1 + 1) == 2 ^ d) by (replace (d - 1 + 1)%Z with d by lia; reflexivity).
  assert (Hlt : (p # q) < 2 ^ (d + 1)).
  { apply Qnot_le_lt. intros Hc.
    assert (2 ^ (d + 1) * 2 ^ lq <= (p # q) * inject_Z (Z.pos q)).
    { apply Qle_trans with ((p # q) * 2 ^ lq).
      - apply Qmult_le_compat_r; [done | lra].
      - rewrite !(Qmult_comm (p # q)). apply Qmult_le_compat_r; [done | lra]. }
    lra. }
  assert (Hge : 2 ^ (d - 1) <= (p # q)).
  { apply Qnot_lt_le. intros Hc.
    assert ((p # q) * inject_Z (Z.pos q) < 2 ^ (d - 1) * 2 ^ (lq + 1)).
    { apply Qle_lt_trans with (2 ^ (d - 1) * inject_Z (Z.pos q)).
      - apply Qmult_le_compat_r; [lra | ]. rewrite <- (Zle_Qle 0). lia.
      - rewrite !(Qmult_comm (2 ^ (d - 1))). apply Qmult_lt_compat_r; [done | done]. }
    lra. }
  destruct (Qle_bool (2 ^ d) (p # q)) eqn:Hb.
  - apply Qle_bool_iff in Hb. done.
  - split; [done|]. rewrite E3. apply Qnot_le_lt. intros Hc.
    apply Qle_bool_iff in Hc. congruence.
Qed.

Lemma ilog2_mono x y : 0 < x → x <= y → (ilog2 x <= ilog2 y)%Z.
Proof.
  intros Hx Hxy. destruct (ilog2_spec x Hx) as [H1 _].
  destruct (ilog2_spec y ltac:(lra)) as [_ H2].
  assert (2 ^ ilog2 x < 2 ^ (ilog2 y + 1)) as H%pow2_lt_inv by lra. lia.
Qed.

Lemma round_nonpos x : x <= 0 → round x = 0.
Proof. intros H. unfold round. apply Qle_bool_iff in H. by rewrite H. Qed.

Lemma round_pos x :
  0 < x → round x == inject_Z (rne (x / 2 ^ ulp_exp x)) * 2 ^ ulp_exp x.
Proof.
  intros H. unfold round. destruct (Qle_bool x 0) eqn:Hb.
  - apply Qle_bool_iff in Hb. lra.
  - cbv zeta. apply Qred_correct.
Qed.

Lemma div_pow2_le x y e : x <= y → x / 2 ^ e <= y / 2 ^ e.
Proof.
  intros H. unfold Qdiv. apply Qmult_le_compat_r; [done|].
  apply Qlt_le_weak, Qinv_lt_0_compat, pow2_pos.
Qed.

Lemma div_pow2 x e : x / 2 ^ e * 2 ^ e == x.
Proof. field. pose proof (pow2_pos e). lra. Qed.

Lemma rne_nonneg x : 0 <= x → (0 <= rne x)%Z.
Proof. intros H. rewrite <- (rne_Z 0). by apply rne_mono. Qed.

Lemma round_nonneg x : 0 <= round x.
Proof.
  destruct (Qlt_le_dec 0 x) as [H|H]; [|rewrite round_nonpos; [lra|done]].
  rewrite round_pos by done. apply Qmult_le_0_compat.
  - rewrite <- (Zle_Qle 0). apply rne_nonneg.
    apply Qle_shift_div_l; [apply pow2_pos | lra].
  - apply Qlt_le_weak, pow2_pos.
Qed.

Lemma ulp_exp_mono x y : 0 < x → x <= y → (ulp_exp x <= ulp_exp y)%Z.
Proof. intros Hx Hxy. pose proof (ilog2_mono x y Hx Hxy). unfold ulp_exp. lia. Qed.

(** Rounding is monotone. *)
Lemma round_mono x y : x <= y → round x <= round y.
Proof.
  intros Hxy. destruct (Qlt_le_dec 0 x) as [Hx|Hx];
    [|rewrite (round_nonpos x Hx); apply round_nonneg].
  assert (Hy : 0 < y) by lra.
  rewrite (round_pos x Hx), (round_pos y Hy).
  pose proof (ulp_exp_mono x y Hx Hxy) as He.
  destruct (Z.eq_dec (ulp_exp x) (ulp_exp y)) as [E|NE].
  - rewrite E. apply Qmult_le_compat_r; [|apply Qlt_le_weak, pow2_pos].
    rewrite <- Zle_Qle. apply rne_mono. by apply div_pow2_le.
  - assert (Hlt : (ulp_exp x < ulp_exp y)%Z) by lia.
    destruct (ilog2_spec x Hx) as [_ Hx2]. destruct (ilog2_spec y Hy) as [Hy1 _].
    assert (Ey : ulp_exp y = (ilog2 y - 52)%Z) by (unfold ulp_exp in *; lia).
    assert (Ex : (ilog2 x + 1 <= ulp_exp x + 53)%Z) by (unfold ulp_exp; lia).
    apply Qle_trans with (2 ^ (ulp_exp x + 53)).
    + rewrite pow2_add, (Qmult_comm (2 ^ ulp_exp x)).
      apply Qmult_le_compat_r; [|apply Qlt_le_weak, pow2_pos].
      change (2 ^ 53) with (inject_Z (2 ^ 53)). rewrite <- Zle_Qle.
      rewrite <- (rne_Z (2 ^ 53)). apply rne_mono.
      apply Qle_shift_div_r; [apply pow2_pos|].
      change (inject_Z (2 ^ 53)) with (2 ^ 53). rewrite <- pow2_add.
      pose proof (pow2_le (ilog2 x + 1) (53 + ulp_exp x) ltac:(lia)). lra.
    + apply Qle_trans with (2 ^ (52 + ulp_exp y)).
      * apply pow2_le. lia.
      * rewrite pow2_add. apply Qmult_le_compat_r; [|apply Qlt_le_weak, pow2_pos].
        change (2 ^ 52) with (inject_Z (2 ^ 52)). rewrite <- Zle_Qle.
        rewrite <- (rne_Z (2 ^ 52)) at 1. apply rne_mono.
        apply Qle_shift_div_l; [apply pow2_pos|].
        change (inject_Z (2 ^ 52)) with (2 ^ 52). rewrite <- pow2_add.
        replace (52 + ulp_exp y)%Z with (ilog2 y) by lia. done.
Qed.

(** Relative error of rounding in the normal range: half a unit in the last
    place, at most [2^-53] times the value. *)
Lemma round_lower x : 2 ^ (-1022) <= x → x * (1 - 2 ^ (-53)) <= round x.
Proof.
  intros Hx. pose proof (pow2_pos (-1022)) as P.
  assert (Hx0 : 0 < x) by lra.
  destruct (ilog2_spec x Hx0) as [H1 H2].
  assert (Hl : (-1022 <= ilog2 x)%Z).
  { assert (2 ^ (-1022) < 2 ^ (ilog2 x + 1)) as H%pow2_lt_inv by lra. lia. }
  assert (Ee : ulp_exp x = (ilog2 x + -52)%Z) by (unfold ulp_exp; lia).
  rewrite (round_pos x Hx0). rewrite Ee.
  set (e := (ilog2 x + -52)%Z). pose proof (pow2_pos e) as Pe.
  pose proof (rne_lower (x / 2 ^ e)) as Hr.
  assert (Hm : (x / 2 ^ e - (1 # 2)) * 2 ^ e <= inject_Z (rne (x / 2 ^ e)) * 2 ^ e).
  { apply Qmult_le_compat_r; [done | lra]. }
  assert (E1 : (x / 2 ^ e - (1 # 2)) * 2 ^ e == x - (1 # 2) * 2 ^ e) by (field; lra).
  assert (E2 : 2 ^ e == 2 ^ ilog2 x * 2 ^ (-52)) by (unfold e; apply pow2_add).
  assert (E3 : 2 ^ (-53) == (1 # 2) * 2 ^ (-52)) by reflexivity.
  pose proof (pow2_pos (-52)) as P52.
  assert (2 ^ ilog2 x * 2 ^ (-52) <= x * 2 ^ (-52)).
  { apply Qmult_le_compat_r; [done | lra]. }
  rewrite E3. lra.
Qed.

Lemma of_int_100 : of_int 100 = 100.
Proof. vm_compute. reflexivity. Qed.

Lemma round_ndigits_mono x y : x <= y → round_ndigits x 2 <= round_ndigits y 2.
Proof.
  intros H. unfold round_ndigits. apply round_mono.
  unfold Qdiv. apply Qmult_le_compat_r; [|discriminate].
  rewrite <- Zle_Qle. apply rne_mono. apply Qmult_le_compat_r; [done | discriminate].
Qed.

Lemma div_int_mono a b c : (a <= b)%Z → (0 <= c)%Z → div_int a c <= div_int b c.
Proof.
  intros Hab Hc. unfold div_int. apply round_mono.
  unfold Qdiv. apply Qmult_le_compat_r; [by rewrite <- Zle_Qle|].
  apply Qinv_le_0_compat. by rewrite <- (Zle_Qle 0).
Qed.

Lemma score_of_mono m1 m2 n : (m1 ≤ m2)%nat → score_of m1 n <= score_of m2 n.
Proof.
  intros H. unfold score_of. apply round_ndigits_mono. unfold mul.
  apply round_mono. rewrite of_int_100.
  apply Qmult_le_compat_r; [|discriminate]. apply div_int_mono; lia.
Qed.

Lemma pow2_m1022_small : 2 ^ (-1022) <= 1 # 32768.
Proof. change (1 # 32768) with (2 ^ (-15)). apply pow2_le. lia. Qed.

Lemma score_of_gt t m n :
  (1 ≤ t)%nat → (t < m)%nat → (m ≤ n)%nat → (Z.of_nat n < 20000)%Z →
  100 * (inject_Z (Z.of_nat t) / inject_Z (Z.of_nat n)) < score_of m n.
Proof.
  intros Ht Htm Hmn Hn. pose proof pow2_m1022_small as Hs.
  set (N := inject_Z (Z.of_nat n)). set (T := inject_Z (Z.of_nat t)).
  set (M := inject_Z (Z.of_nat m)).
  assert (HN : 0 < N) by (unfold N; rewrite <- (Zlt_Qlt 0); lia).
  assert (HN2 : N <= 19999) by (unfold N; change 19999 with (inject_Z 19999); rewrite <- Zle_Qle; lia).
  assert (HT : 1 <= T) by (unfold T; change 1 with (inject_Z 1); rewrite <- Zle_Qle; lia).
  assert (HTM : T + 1 <= M).
  { unfold T, M. change 1 with (inject_Z 1). rewrite <- inject_Z_plus, <- Zle_Qle. lia. }
  assert (HMN : M <= N) by (unfold M, N; rewrite <- Zle_Qle; lia).
  set (b := T / N). set (a := M / N). set (c := / N).
  assert (Hc : 1 # 19999 <= c).
  { unfold c. apply Qle_shift_inv_l; [done|]. lra. }
  assert (Hab : b + c <= a).
  { unfold a, b, c. unfold Qdiv. rewrite <- (Qmult_1_l (/ N)) at 2.
    rewrite <- Qmult_plus_distr_l. apply Qmult_le_compat_r; [done|].
    apply Qlt_le_weak, Qinv_lt_0_compat, HN. }
  assert (Ha1 : a <= 1).
  { unfold a. apply Qle_shift_div_r; [done | lra]. }
  assert (Hb0 : 0 < b).
  { unfold b. apply Qlt_shift_div_l; [done | lra]. }
  unfold score_of. fold N M. fold a. unfold round_ndigits, mul.
  rewrite of_int_100. unfold div_int. fold M N a.
  pose proof (λ x, round_lower x) as RL.
  change (2 ^ (-53)) with (1 # 9007199254740992) in RL.
  set (u := 1 # 9007199254740992) in *.
  set (tiny := 2 ^ (-1022)) in *.
  clearbody a b c tiny N T M. unfold u in *. clear u. clear Ht Htm Hmn Hn.
  assert (H1 : a * (1 - (1 # 9007199254740992)) <= round a) by (apply RL; lra).
  set (d := round a) in *. clearbody d.
  assert (H2 : d * 100 * (1 - (1 # 9007199254740992)) <= round (d * 100)) by (apply RL; lra).
  set (p := round (d * 100)) in *. clearbody p.
  pose proof (rne_lower (p * 10 ^ 2)) as H3.
  change (10 ^ 2) with 100 in *.
  set (K := rne (p * 100)) in *. clearbody K.
  assert (HK : (1 <= K)%Z).
  { assert (0 < inject_Z K) as HK0 by lra. rewrite <- (Zlt_Qlt 0) in HK0. lia. }
  assert (HKq : 1 <= inject_Z K) by (change 1 with (inject_Z 1); by rewrite <- Zle_Qle).
  clear HK. set (k := inject_Z K) in *. clearbody k.
  unfold Qdiv. change (/ 100) with (1 # 100).
  assert (H4 : k * (1 # 100) * (1 - (1 # 9007199254740992)) <= round (k * (1 # 100))) by (apply RL; lra).
  lra.
Qed.

(** Absolute error of rounding: half a unit in the last place, which is at
    most [2^-53] times the value in the normal range and [2^-1075] below. *)
Lemma round_close x :
  0 <= x →
  x * (1 - 2 ^ (-53)) - 2 ^ (-1075) <= round x ∧
  round x <= x * (1 + 2 ^ (-53)) + 2 ^ (-1075).
Proof.
  intros Hx0. pose proof (pow2_pos (-1075)) as Pt. pose proof (pow2_pos (-53)) as Pu.
  destruct (Qlt_le_dec 0 x) as [Hx|Hx].
  2:{ rewrite round_nonpos by done. assert (x == 0) as -> by lra. lra. }
  rewrite (round_pos x Hx). destruct (ilog2_spec x Hx) as [H1 _].
  set (e := ulp_exp x). pose proof (pow2_pos e) as Pe.
  pose proof (rne_lower (x / 2 ^ e)) as Hlo. pose proof (rne_upper (x / 2 ^ e)) as Hup.
  apply (Qmult_le_compat_r _ _ (2 ^ e)) in Hlo; [|lra].
  apply (Qmult_le_compat_r _ _ (2 ^ e)) in Hup; [|lra].
  assert (E1 : (x / 2 ^ e - (1 # 2)) * 2 ^ e == x - (1 # 2) * 2 ^ e) by (field; lra).
  assert (E2 : (x / 2 ^ e + (1 # 2)) * 2 ^ e == x + (1 # 2) * 2 ^ e) by (field; lra).
  assert (Hhalf : (1 # 2) * 2 ^ e <= x * 2 ^ (-53) + 2 ^ (-1075)).
  { destruct (Z.le_gt_cases (-1074) (ilog2 x - 52)) as [Hn|Hs].
    - assert (e = (ilog2 x + -52)%Z) as -> by (unfold e, ulp_exp; lia).
      rewrite pow2_add. change (2 ^ (-53)) with ((1 # 2) * 2 ^ (-52)).
      pose proof (pow2_pos (-52)) as P52.
      assert (2 ^ ilog2 x * 2 ^ (-52) <= x * 2 ^ (-52))
        by (apply Qmult_le_compat_r; [done | lra]).
      lra.
    - assert (e = (-1074)%Z) as -> by (unfold e, ulp_exp; lia).
      change (2 ^ (-1075)) with ((1 # 2) * 2 ^ (-1074)).
      assert (0 <= x * 2 ^ (-53)) by (apply Qmult_le_0_compat; lra). lra. }
  set (r := inject_Z (rne (x / 2 ^ e)) * 2 ^ e) in *. clearbody r.
  set (h := (1 # 2) * 2 ^ e) in *. clearbody h.
  set (xu := x * 2 ^ (-53)) in *.
  assert (Ea : x * (1 - 2 ^ (-53)) == x - xu) by (unfold xu; ring).
  assert (Eb : x * (1 + 2 ^ (-53)) == x + xu) by (unfold xu; ring).
  rewrite Ea, Eb. clearbody xu. set (t := 2 ^ (-1075)) in *. clearbody t. lra.
Qed.

(** The score is the float nearest to a decimal with two fractional digits
    that lies within half a hundredth (and the rounding noise of three float
    operations) of the exact percentage. *)
Lemma score_of_close m n :
  (m ≤ n)%nat → (0 < n)%nat →
  Qabs (score_of m n - 100 * (inject_Z (Z.of_nat m) / inject_Z (Z.of_nat n)))
  <= (1 # 200) + (1 # 1000000000000).
Proof.
  intros Hmn Hn.
  set (N := inject_Z (Z.of_nat n)). set (M := inject_Z (Z.of_nat m)).
  assert (HN : 0 < N) by (unfold N; rewrite <- (Zlt_Qlt 0); lia).
  assert (HM : 0 <= M) by (unfold M; rewrite <- (Zle_Qle 0); lia).
  assert (HMN : M <= N) by (unfold M, N; rewrite <- Zle_Qle; lia).
  set (a := M / N).
  assert (Ha0 : 0 <= a) by (unfold a; apply Qle_shift_div_l; [done | lra]).
  assert (Ha1 : a <= 1) by (unfold a; apply Qle_shift_div_r; [done | lra]).
  unfold score_of. fold N M. unfold round_ndigits, mul, div_int. fold M N a.
  rewrite of_int_100. change (10 ^ 2) with 100.
  assert (Ht : 2 ^ (-1075) <= 1 # 18446744073709551616).
  { change (1 # 18446744073709551616) with (2 ^ (-64)). apply pow2_le. lia. }
  pose proof (pow2_pos (-1075)) as Pt.
  pose proof (λ x, round_close x) as RC.
  change (2 ^ (-53)) with (1 # 9007199254740992) in RC.
  set (t := 2 ^ (-1075)) in *. clearbody t a. clear HN HM HMN Hmn Hn. clearbody N M.
  destruct (RC a Ha0) as [D1 D2]. pose proof (round_nonneg a) as D0.
  set (d := round a) in *. clearbody d.
  assert (Hd : 0 <= d * 100) by lra.
  destruct (RC (d * 100) Hd) as [P1 P2]. pose proof (round_nonneg (d * 100)) as P0.
  set (p := round (d * 100)) in *. clearbody p.
  pose proof (rne_lower (p * 100)) as K1. pose proof (rne_upper (p * 100)) as K2.
  assert (K0 : (0 <= rne (p * 100))%Z) by (apply rne_nonneg; lra).
  rewrite (Zle_Qle 0) in K0. change (inject_Z 0) with 0 in K0. set (k := inject_Z (rne (p * 100))) in *. clearbody k.
  unfold Qdiv. change (/ 100) with (1 # 100).
  assert (Hk : 0 <= k * (1 # 100)) by lra.
  destruct (RC (k * (1 # 100)) Hk) as [S1 S2].
  set (s := round (k * (1 # 100))) in *. clearbody s.
  apply Qabs_Qle_condition. split; lra.
Qed.

End float64_facts.

(** The model of binary64 arithmetic agrees with the machine on every score
    of at most 120 keywords, and on the constant of Scenario A. *)
Example score_of_agrees_with_hardware : Hardware.agrees_upto 120 = true.
Proof. vm_compute. reflexivity. Qed.

Example literal_agrees_with_hardware :
  Hardware.to_Q (PrimFloat.div (Hardware.of_int 6667) (Hardware.of_int 100))
  = Some (Float64.literal 66.67).
Proof. vm_compute. reflexivity. Qed.

(** An exact tie of the percentage, 14.375, is not a tie in binary64: the
    float is just below it and the score is 14.37. *)
Example score_of_near_tie : score_of 23 160 = Float64.literal 14.37.
Proof. vm_compute. reflexivity. Qed.

(** ** Counters *)

Lemma count_nil w : count w [] = 0.
Proof. done. Qed.

Lemma count_cons w x l :
  count w (x :: l) = if decide (x = w) then S (count w l) else count w l.
Proof. unfold count. rewrite filter_cons. by destruct (decide (x = w)). Qed.

Lemma count_pos w l : w ∈ l ↔ 0 < count w l.
Proof.
  induction l as [|x l IH]; [rewrite count_nil; split; [by intros ?%elem_of_nil | lia]|].
  rewrite count_cons, elem_of_cons. destruct (decide (x = w)); [naive_solver lia|].
  rewrite <- IH. naive_solver.
Qed.

Lemma counter_get_incr w c w' :
  counter_get (counter_incr w c) w' =
  if decide (w = w') then S (counter_get c w') else counter_get c w'.
Proof.
  induction c as [|[k n] c IH]; simpl.
  - destruct (String.eqb_spec w w'); by destruct (decide (w = w')).
  - destruct (String.eqb_spec k w) as [->|Hkw]; simpl.
    + destruct (String.eqb_spec w w'); by destruct (decide (w = w')).
    + destruct (String.eqb_spec k w') as [->|Hkw']; [|done].
      by destruct (decide (w = w')).
Qed.

Lemma counter_keys_incr w c :
  (counter_incr w c).*1 = if decide (w ∈ c.*1) then c.*1 else c.*1 ++ [w].
Proof.
  induction c as [|[k n] c IH]; cbn [counter_incr].
  - rewrite decide_False; [done | apply not_elem_of_nil].
  - rewrite (fmap_cons fst (k, n)). cbn [fst].
    destruct (String.eqb_spec k w) as [->|Hkw]; rewrite fmap_cons; cbn [fst].
    + rewrite decide_True by (apply elem_of_cons; by left). done.
    + rewrite IH. destruct (decide (w ∈ c.*1)) as [H|H].
      * rewrite decide_True by (apply elem_of_cons; by right). done.
      * rewrite decide_False; [done|]. intros [->|?]%elem_of_cons; done.
Qed.

Lemma counter_get_fold l c w :
  counter_get (fold_left (λ c w, counter_incr w c) l c) w = counter_get c w + count w l.
Proof.
  revert c. induction l as [|x l IH]; intros c; simpl; [rewrite count_nil; lia|].
  rewrite IH, counter_get_incr, count_cons. destruct (decide (x = w)); lia.
Qed.

Lemma counter_keys_fold l c w :
  w ∈ (fold_left (λ c w, counter_incr w c) l c).*1 ↔ w ∈ c.*1 ∨ w ∈ l.
Proof.
  revert c. induction l as [|x l IH]; intros c; simpl.
  - rewrite elem_of_nil. tauto.
  - rewrite IH, counter_keys_incr, elem_of_cons.
    destruct (decide (x ∈ c.*1)); [naive_solver|].
    rewrite elem_of_app, list_elem_of_singleton. naive_solver.
Qed.

Lemma counter_keys_fold_NoDup l c :
  NoDup c.*1 → NoDup (fold_left (λ c w, counter_incr w c) l c).*1.
Proof.
  revert c. induction l as [|x l IH]; intros c Hc; simpl; [done|].
  apply IH. rewrite counter_keys_incr. destruct (decide (x ∈ c.*1)); [done|].
  apply NoDup_app. split_and!; [done| |apply NoDup_singleton].
  intros y Hy ->%list_elem_of_singleton. done.
Qed.

Lemma counter_get_elem c w n : NoDup c.*1 → (w, n) ∈ c → counter_get c w = n.
Proof.
  induction c as [|[k m] c IH]; intros Hnd Hin; [by apply elem_of_nil in Hin|].
  simpl in *. apply NoDup_cons in Hnd as [Hk Hnd].
  apply elem_of_cons in Hin as [[= -> ->]|Hin].
  - by rewrite String.eqb_refl.
  - destruct (String.eqb_spec k w) as [->|]; [|by apply IH].
    exfalso. apply Hk. apply list_elem_of_fmap. by exists (w, n).
Qed.

Lemma counter_elem_get c w : w ∈ c.*1 → (w, counter_get c w) ∈ c.
Proof.
  induction c as [|[k m] c IH]; simpl; [by intros ?%elem_of_nil|].
  intros Hin. destruct (String.eqb_spec k w) as [->|Hkw]; [apply elem_of_cons; by left|].
  apply elem_of_cons in Hin as [->|Hin]; [done|]. apply elem_of_cons. right. by apply IH.
Qed.

Lemma Counter_get l w : counter_get (Counter l) w = count w l.
Proof. unfold Counter. by rewrite counter_get_fold. Qed.

Lemma Counter_keys l w : w ∈ counter_keys (Counter l) ↔ w ∈ l.
Proof.
  unfold Counter, counter_keys. rewrite counter_keys_fold. simpl.
  rewrite elem_of_nil. tauto.
Qed.

Lemma Counter_NoDup l : NoDup (counter_keys (Counter l)).
Proof. apply counter_keys_fold_NoDup. constructor. Qed.

Lemma Counter_items l w n : (w, n) ∈ Counter l ↔ w ∈ l ∧ n = count w l.
Proof.
  split.
  - intros Hin. split.
    + apply Counter_keys. apply list_elem_of_fmap. by exists (w, n).
    + rewrite <- Counter_get. symmetry. apply counter_get_elem; [apply Counter_NoDup | done].
  - intros [Hin ->]. rewrite <- Counter_get. apply counter_elem_get. by apply Counter_keys.
Qed.

(** The frequency filter of [calculate_match_score] computes the filtered
    keyword set of the specification. *)
Lemma filtered_spec jd min_freq :
  list_to_set (filter (λ item : string * nat, (min_freq ≤ Z.of_nat item.2)%Z) (Counter jd)).*1
  = spec_filtered jd min_freq.
Proof.
  apply set_eq. intros w. unfold spec_filtered.
  rewrite !elem_of_list_to_set, list_elem_of_fmap, list_elem_of_filter. split.
  - intros [[w' n] [-> [Hn [Hin ->]%Counter_items]%list_elem_of_filter]]. done.
  - intros [Hn Hin]. exists (w, count w jd). split; [done|].
    apply list_elem_of_filter. split; [done|]. by apply Counter_items.
Qed.

Lemma resume_keys_spec resume :
  list_to_set (counter_keys (Counter resume)) =@{gset string} list_to_set resume.
Proof. apply set_eq. intros w. by rewrite !elem_of_list_to_set, Counter_keys. Qed.

Lemma elem_of_spec_filtered w jd min_freq :
  w ∈ spec_filtered jd min_freq ↔ w ∈ jd ∧ (min_freq ≤ Z.of_nat (count w jd))%Z.
Proof. unfold spec_filtered. rewrite elem_of_list_to_set, list_elem_of_filter. tauto. Qed.

Lemma elem_of_spec_matched w resume jd min_freq :
  w ∈ spec_matched resume jd min_freq ↔ w ∈ spec_filtered jd min_freq ∧ w ∈ resume.
Proof. unfold spec_matched. by rewrite elem_of_intersection, elem_of_list_to_set. Qed.

Lemma elem_of_spec_missing w resume jd min_freq :
  w ∈ spec_missing resume jd min_freq ↔ w ∈ spec_filtered jd min_freq ∧ w ∉ resume.
Proof.
  unfold spec_missing. rewrite elem_of_difference, elem_of_spec_matched. tauto.
Qed.

(** ** Sorting and truncation *)

Section sorting.
Context {A : Type} (key : A → nat).

Lemma insert_desc_perm x l : insert_desc key x l ≡ₚ x :: l.
Proof.
  induction l as [|y l IH]; simpl; [done|].
  destruct (key x <? key y); [|done]. rewrite IH. apply Permutation_swap.
Qed.

Lemma sorted_desc_perm l : sorted_desc key l ≡ₚ l.
Proof.
  induction l as [|x l IH]; simpl; [done|].
  fold (sorted_desc key l). by rewrite insert_desc_perm, IH.
Qed.

Lemma insert_desc_sorted x l :
  StronglySorted (desc key) l → StronglySorted (desc key) (insert_desc key x l).
Proof.
  induction 1 as [|y l Hl IH Hy]; simpl.
  - repeat constructor.
  - destruct (Nat.ltb_spec (key x) (key y)) as [Hlt|Hge].
    + constructor; [done|]. rewrite insert_desc_perm. constructor; [|done].
      unfold desc. lia.
    + constructor; [by constructor|]. constructor; [done|].
      eapply Forall_impl; [done|]. unfold desc. intros z Hz. simpl in Hz. lia.
Qed.

Lemma sorted_desc_sorted l : StronglySorted (desc key) (sorted_desc key l).
Proof.
  induction l as [|x l IH]; simpl; [constructor|]. by apply insert_desc_sorted.
Qed.

Lemma sorted_take_drop n l x y :
  StronglySorted (desc key) l → x ∈ take n l → y ∈ drop n l → key y ≤ key x.
Proof.
  intros Hl. revert n. induction Hl as [|z l Hl IH Hz]; intros n.
  - rewrite take_nil. by intros ?%elem_of_nil.
  - destruct n as [|n]; simpl; [by intros ?%elem_of_nil|].
    intros [->|Hx]%elem_of_cons Hy; [|by eapply IH].
    rewrite Forall_forall in Hz. apply Hz. by eapply subseteq_drop.
Qed.

(** A stable sort leaves a list alone when all keys are equal. *)
Lemma sorted_desc_const l k : Forall (λ x, key x = k) l → sorted_desc key l = l.
Proof.
  induction 1 as [|x l Hx Hl IH]; simpl; [done|]. fold (sorted_desc key l).
  rewrite IH. destruct Hl as [|y l Hy Hl]; simpl; [done|].
  rewrite Hx, Hy, Nat.ltb_irrefl. done.
Qed.
End sorting.

Lemma slice_to_pos {A} (l : list A) n : (0 < n)%Z → slice_to l n = take (Z.to_nat n) l.
Proof. intros H. unfold slice_to. destruct (Z.leb_spec 0 n); [done | lia]. Qed.

Section top_keywords.
Context `{SetOrder} (c : counter) (top_n : Z) (s : gset string).
Hypothesis Hn : (0 < top_n)%Z.

Lemma ranking_perm : ranking c s ≡ₚ elements s.
Proof. unfold ranking. by rewrite sorted_desc_perm, set_iter_perm. Qed.

Lemma ranking_NoDup : NoDup (ranking c s).
Proof. rewrite ranking_perm. apply NoDup_elements. Qed.

Lemma top_keywords_eq :
  top_keywords c top_n s = list_to_set (take (Z.to_nat top_n) (ranking c s)).
Proof. unfold top_keywords. by rewrite slice_to_pos. Qed.

Lemma top_keywords_subseteq : top_keywords c top_n s ⊆ s.
Proof.
  rewrite top_keywords_eq. intros w Hw%elem_of_list_to_set.
  apply elem_of_take in Hw as (i & Hw & _). apply list_elem_of_lookup_2 in Hw.
  rewrite ranking_perm in Hw. by apply elem_of_elements in Hw.
Qed.

Lemma top_keywords_size : size (top_keywords c top_n s) = Z.to_nat top_n `min` size s.
Proof.
  rewrite top_keywords_eq, size_list_to_set.
  - rewrite length_take, ranking_perm. done.
  - eapply sublist_NoDup; [apply ranking_NoDup | apply sublist_take].
Qed.

Lemma top_keywords_all : size s ≤ Z.to_nat top_n → top_keywords c top_n s = s.
Proof.
  intros Hs. rewrite top_keywords_eq, take_ge.
  - apply set_eq. intros w. by rewrite elem_of_list_to_set, ranking_perm, elem_of_elements.
  - rewrite ranking_perm. done.
Qed.

Lemma top_keywords_ranked w w' :
  w ∈ top_keywords c top_n s → w' ∈ s → (w' ∉ top_keywords c top_n s) →
  counter_get c w' ≤ counter_get c w.
Proof.
  rewrite top_keywords_eq, !elem_of_list_to_set. intros Hw Hw' Hn'.
  eapply (sorted_take_drop _ (Z.to_nat top_n) (ranking c s));
    [apply sorted_desc_sorted | done |].
  apply elem_of_elements in Hw'. rewrite <- ranking_perm in Hw'.
  rewrite <- (take_drop (Z.to_nat top_n) (ranking c s)) in Hw'.
  apply elem_of_app in Hw' as [?|?]; done.
Qed.
End top_keywords.

(** ** The match score *)

Lemma round_ndigits_0 : Float64.round_ndigits 0 2 = 0%Q.
Proof. vm_compute. reflexivity. Qed.

Section calculate_match_score.
Context `{SetOrder}.

Lemma calculate_match_score_empty resume jd min_freq top_n :
  resume = [] ∨ jd = [] →
  calculate_match_score resume jd min_freq top_n = Ok (0%Q, ∅, ∅).
Proof.
  intros Hempty. unfold calculate_match_score.
  destruct Hempty as [-> | ->]; [done|].
  by destruct (bool_decide (resume = [])).
Qed.

Lemma calculate_match_score_nonempty resume jd min_freq top_n :
  resume ≠ [] → jd ≠ [] →
  calculate_match_score resume jd min_freq top_n =
  Ok (if bool_decide (spec_filtered jd min_freq ≠ ∅)
      then score_of (size (spec_matched resume jd min_freq))
                    (size (spec_filtered jd min_freq))
      else 0%Q,
      capped resume top_n (spec_matched resume jd min_freq),
      capped resume top_n (spec_missing resume jd min_freq)).
Proof.
  intros Hr Hj. unfold calculate_match_score.
  rewrite (bool_decide_eq_false_2 (resume = [])), (bool_decide_eq_false_2 (jd = [])) by done.
  cbn [orb]. rewrite filtered_spec, resume_keys_spec.
  fold (spec_matched resume jd min_freq). fold (spec_missing resume jd min_freq).
  unfold capped.
  destruct (bool_decide (spec_filtered jd min_freq ≠ ∅)) eqn:HF.
  - apply bool_decide_eq_true in HF. unfold truediv.
    destruct (Z.eqb_spec (Z.of_nat (size (spec_filtered jd min_freq))) 0) as [E|_].
    + apply Nat2Z.inj_iff with (m := 0%nat) in E. apply size_empty_iff in E.
      exfalso. apply HF. by apply leibniz_equiv.
    + cbn. unfold score_of. by destruct (bool_decide (0 < top_n)%Z).
  - cbn. rewrite round_ndigits_0. by destruct (bool_decide (0 < top_n)%Z).
Qed.

Lemma capped_subseteq resume top_n s : capped resume top_n s ⊆ s.
Proof.
  unfold capped. case_bool_decide; [by apply top_keywords_subseteq | done].
Qed.

Lemma capped_size resume top_n s :
  (0 < top_n)%Z → size (capped resume top_n s) = Z.to_nat top_n `min` size s.
Proof.
  intros Hn. unfold capped. rewrite bool_decide_eq_true_2 by done.
  by apply top_keywords_size.
Qed.

Lemma capped_all resume top_n s :
  (top_n ≤ 0)%Z ∨ (Z.of_nat (size s) ≤ top_n)%Z → capped resume top_n s = s.
Proof.
  intros Hn. unfold capped. case_bool_decide; [|done].
  apply top_keywords_all; [done | lia].
Qed.

Lemma capped_ranked resume top_n s w w' :
  (0 < top_n)%Z → w ∈ capped resume top_n s → w' ∈ s → w' ∉ capped resume top_n s →
  count w' resume ≤ count w resume.
Proof.
  intros Hn. unfold capped. rewrite bool_decide_eq_true_2 by done.
  rewrite <- !Counter_get. by apply top_keywords_ranked.
Qed.
End calculate_match_score.

Local Open Scope string_scope.

Lemma spec_filtered_nil min_freq : spec_filtered [] min_freq = ∅.
Proof. done. Qed.

Lemma spec_matched_nil jd min_freq : spec_matched [] jd min_freq = ∅.
Proof. unfold spec_matched. simpl. set_solver. Qed.

Lemma spec_matched_subseteq resume jd min_freq :
  spec_matched resume jd min_freq ⊆ spec_filtered jd min_freq.
Proof. unfold spec_matched. set_solver. Qed.

Lemma score_of_nonneg m n : (0 <= score_of m n)%Q.
Proof. apply round_nonneg. Qed.

Lemma score_of_0 n : score_of 0 n = 0%Q.
Proof. unfold score_of. simpl. unfold Float64.div_int. by destruct n. Qed.

Lemma size_eq_exchange (X Y : gset string) w :
  size X = size Y → w ∈ X → w ∉ Y → ∃ w', w' ∈ Y ∧ w' ∉ X.
Proof.
  intros Hs Hw Hw'. destruct (decide (Y ⊆ X)) as [Hsub|Hsub].
  - exfalso. assert (Y ⊂ X) as Hlt%subset_size; [|lia].
    split; [done|]. intros HXY. by apply Hw', HXY.
  - apply (not_set_Forall_Exists (λ x, x ∈ X)) in Hsub as (w' & ? & ?). by exists w'.
Qed.

(** ** Many distinct keywords *)

Lemma count_NoDup w l : NoDup l → w ∈ l → count w l = 1%nat.
Proof.
  induction 1 as [|x l Hx Hl IH]; [by intros ?%elem_of_nil|].
  rewrite count_cons. intros [->|Hw]%elem_of_cons.
  - rewrite decide_True by done. f_equal.
    destruct (count x l) eqn:E; [done|]. exfalso. apply Hx, count_pos. lia.
  - rewrite decide_False by (by intros ->). by apply IH.
Qed.

Lemma spec_filtered_NoDup jd min_freq :
  NoDup jd → (min_freq ≤ 1)%Z → spec_filtered jd min_freq = list_to_set jd.
Proof.
  intros Hnd Hm. apply set_eq. intros w.
  rewrite elem_of_spec_filtered, elem_of_list_to_set. split; [tauto|].
  intros Hw. split; [done|]. rewrite count_NoDup by done. lia.
Qed.

Lemma many_keywords_NoDup n : NoDup (many_keywords n).
Proof.
  unfold many_keywords. apply NoDup_fmap_2; [|apply NoDup_seq].
  intros i j Hij. injection Hij as Hij. change (pretty i = pretty j) in Hij.
  by apply (inj pretty) in Hij.
Qed.

Lemma length_many_keywords n : length (many_keywords n) = n.
Proof. unfold many_keywords. by rewrite length_fmap, length_seq. Qed.

Lemma elem_of_many_keywords (i n : nat) : (i < n)%nat → "k" +:+ pretty i ∈ many_keywords n.
Proof.
  intros Hi. unfold many_keywords. apply list_elem_of_fmap. exists i. split; [done|].
  apply elem_of_seq. lia.
Qed.

Lemma size_filtered_many n : size (spec_filtered (many_keywords n) 1) = n.
Proof.
  rewrite spec_filtered_NoDup by (apply many_keywords_NoDup || lia).
  rewrite size_list_to_set by apply many_keywords_NoDup. apply length_many_keywords.
Qed.

Lemma matched_many n :
  (2 ≤ n)%nat → spec_matched ["k0"; "k1"] (many_keywords n) 1 = {["k0"; "k1"]}.
Proof.
  intros Hn. unfold spec_matched.
  rewrite spec_filtered_NoDup by (apply many_keywords_NoDup || lia).
  pose proof (elem_of_many_keywords 0 n ltac:(lia)) as H0.
  pose proof (elem_of_many_keywords 1 n ltac:(lia)) as H1.
  change ("k" +:+ pretty 0%nat) with "k0" in H0. change ("k" +:+ pretty 1%nat) with "k1" in H1.
  apply set_eq. intros w. rewrite elem_of_intersection, !elem_of_list_to_set.
  set_solver.
Qed.

(** ** Normalised text *)

Lemma char_lower_idem c : Str.char_lower (Str.char_lower c) = Str.char_lower c.
Proof. destruct c as [[] [] [] [] [] [] [] []]; reflexivity. Qed.

Lemma is_lower_cons c s : is_lower (String c s) ↔ Str.char_lower c = c ∧ is_lower s.
Proof.
  unfold is_lower. simpl. split; [by intros [= -> ->] | by intros [-> ->]].
Qed.

Lemma is_lower_empty : is_lower "".
Proof. done. Qed.

Lemma lower_is_lower s : is_lower (Str.lower s).
Proof.
  induction s as [|c s IH]; [done|]. simpl. apply is_lower_cons.
  split; [apply char_lower_idem | done].
Qed.

Lemma strip_punctuation_is_lower s : is_lower s → is_lower (Str.strip_punctuation s).
Proof.
  induction s as [|c s IH]; [done|]. intros [Hc Hs]%is_lower_cons. simpl.
  destruct (_ || _); [|by apply IH]. apply is_lower_cons. auto.
Qed.

Lemma split_is_lower s : is_lower s → Forall is_lower (Str.split s).
Proof.
  induction s as [|c s IH]; [constructor|]. intros [Hc Hs]%is_lower_cons.
  specialize (IH Hs). cbn [Str.split].
  assert (Hone : is_lower (String c "")) by by apply is_lower_cons.
  destruct (Str.char_isspace c); [done|].
  destruct s as [|c' s']; [by repeat constructor|].
  destruct (Str.char_isspace c'); [by constructor|].
  destruct (Str.split (String c' s')) as [|t ts]; [by repeat constructor|].
  apply Forall_cons in IH as [Ht Hts]. constructor; [|done].
  by apply is_lower_cons.
Qed.

Lemma isdigit_len w : Str.isdigit w → (1 ≤ Str.len w)%nat.
Proof. destruct w; [done | simpl; lia]. Qed.

Lemma keep_token_len stop w :
  keep_token stop w → (1 ≤ Str.len w)%nat ∧ (Str.len w = 1%nat → Str.isdigit w).
Proof.
  intros [_ [Hlen|Hd]]; [split; lia|]. split; [by apply isdigit_len | done].
Qed.

Lemma keep_token_empty w : keep_token ∅ w ↔ (1 < Str.len w)%nat ∨ Str.isdigit w.
Proof. unfold keep_token. set_solver. Qed.

(** [preprocess_text] never raises: the tokens are those of the tokenizer, or
    of [split] when the tokenizer raises or the resources are missing. *)
Lemma preprocess_text_total env text :
  ∃ tokens,
    preprocess_text env text = Ok tokens ∧
    (text = None ∨ text = Some "" → tokens = []) ∧
    ∃ raw, tokens = filter (keep_token (STOP_WORDS env)) raw ∧
           ∀ t, text = Some t →
                raw = Str.split (Str.strip_punctuation (Str.lower t)) ∨
                (NLTK_RESOURCES_READY env = true ∧
                 word_tokenize env (Str.strip_punctuation (Str.lower t)) = Ok raw).
Proof.
  destruct text as [[|c s]|].
  - exists []. split_and!; [done..|]. exists []. split; [done|]. intros t [= <-]. by left.
  - unfold preprocess_text. destruct (NLTK_RESOURCES_READY env) eqn:Hready; cbn [negb].
    + destruct (word_tokenize env _) as [raw|e] eqn:Htok; cbn.
      * eexists. split_and!; [done | by intros [|] |]. exists raw. split; [done|].
        intros t [= <-]. right. done.
      * eexists. split_and!; [done | by intros [|] |]. eexists. split; [done|].
        intros t [= <-]. by left.
    + eexists. split_and!; [done | by intros [|] |]. eexists. split; [done|].
      intros t [= <-]. by left.
  - exists []. split_and!; [done..|]. exists []. split; [done|]. intros t [=].
Qed.

Lemma most_common_take c n :
  most_common c n = take (Z.to_nat n) (sorted_desc snd c).
Proof.
  unfold most_common, nlargest. destruct (Z.leb_spec n 0); [|done].
  by replace (Z.to_nat n) with 0%nat by lia.
Qed.

(** * The claims *)

(** C1. For non-empty [resume_tokens] and [jd_keywords],
    [calculate_match_score] returns the score
    [round((|matched| / |filtered|) * 100, 2)], where [filtered] is the set of
    distinct keywords whose count within [jd_keywords] is at least
    [min_freq], [matched] is its intersection with the set of resume tokens
    and [missing] is the rest of [filtered]; the score is [0.0] when
    [filtered] is empty, and otherwise lies within half a hundredth (plus the
    rounding noise of binary64) of the exact percentage.  The returned sets
    are [matched] and [missing] themselves unless [top_n] truncates them.  In
    Scenario A the filtered set is {python, sql, java}, matched is
    {python, sql}, missing is {java}, and the score is the float [66.67]. *)
Theorem match_score_formula `{SetOrder} :
  (∀ resume jd min_freq top_n, resume ≠ [] → jd ≠ [] →
     let filtered := spec_filtered jd min_freq in
     let all_matched := spec_matched resume jd min_freq in
     let all_missing := spec_missing resume jd min_freq in
     ∃ score matched missing,
       calculate_match_score resume jd min_freq top_n = Ok (score, matched, missing) ∧
       (filtered ≠ ∅ →
          score = score_of (size all_matched) (size filtered) ∧
          (Qabs (score - 100 * (inject_Z (Z.of_nat (size all_matched))
                                / inject_Z (Z.of_nat (size filtered))))
           <= (1 # 200) + (1 # 1000000000000))%Q) ∧
       (filtered = ∅ → score = 0%Q) ∧
       ((top_n ≤ 0)%Z ∨ (Z.of_nat (size all_matched) ≤ top_n)%Z → matched = all_matched) ∧
       ((top_n ≤ 0)%Z ∨ (Z.of_nat (size all_missing) ≤ top_n)%Z → missing = all_missing)) ∧
  (let resume := ["python"; "developer"; "sql"] in
   let jd := ["python"; "sql"; "java"; "python"] in
   spec_filtered jd 1 = {["python"; "sql"; "java"]} ∧
   spec_matched resume jd 1 = {["python"; "sql"]} ∧
   spec_missing resume jd 1 = {["java"]} ∧
   calculate_match_score resume jd 1 75
   = Ok (Float64.literal 66.67, {["python"; "sql"]}, {["java"]})).
Proof.
  split.
  - intros resume jd min_freq top_n Hr Hj filtered all_matched all_missing.
    eexists _, _, _. split; [by apply calculate_match_score_nonempty|].
    fold filtered all_matched all_missing. split_and!.
    + intros HF. rewrite bool_decide_eq_true_2 by done. split; [done|].
      apply score_of_close; [apply subseteq_size, spec_matched_subseteq|].
      destruct (size filtered) eqn:E; [|lia].
      apply size_empty_iff, leibniz_equiv in E. done.
    + intros HF. by rewrite bool_decide_eq_false_2 by (by intros []).
    + apply capped_all.
    + apply capped_all.
  - intros resume jd.
    assert (HF : spec_filtered jd 1 = {["python"; "sql"; "java"]}) by (by vm_compute).
    assert (HM : spec_matched resume jd 1 = {["python"; "sql"]}) by (by vm_compute).
    assert (HN : spec_missing resume jd 1 = {["java"]}) by (by vm_compute).
    split_and!; try done.
    rewrite calculate_match_score_nonempty by done.
    rewrite !capped_all by (right; by vm_compute).
    rewrite HF, HM, HN. by vm_compute.
Qed.

Lemma match_score_formula_witness :
  ["python"; "sql"] ≠ [] ∧ ["python"; "java"] ≠ [] ∧
  ∃ score matched missing,
    calculate_match_score (H := forward_order) ["python"; "sql"] ["python"; "java"] 1 75
    = Ok (score, matched, missing) ∧
    matched = spec_matched ["python"; "sql"] ["python"; "java"] 1.
Proof.
  assert (H1 : ["python"; "sql"] ≠ []) by discriminate.
  assert (H2 : ["python"; "java"] ≠ []) by discriminate.
  split; [exact H1|]. split; [exact H2|].
  destruct (proj1 (match_score_formula (H := forward_order))
              ["python"; "sql"] ["python"; "java"] 1%Z 75%Z H1 H2)
    as (score & matched & missing & Hok & _ & _ & Hm & _).
  exists score, matched, missing. split; [exact Hok|].
  apply Hm. right. vm_compute. discriminate.
Defined.

(** C2. For every [min_freq] and [top_n], if [resume_tokens] or
    [jd_keywords] is empty, [calculate_match_score] returns exactly
    [(0.0, set(), set())]; in particular for the empty resume against
    ["python"] (Scenario B). *)
Theorem empty_input_short_circuit `{SetOrder} :
  (∀ resume jd min_freq top_n, resume = [] ∨ jd = [] →
     calculate_match_score resume jd min_freq top_n = Ok (0%Q, ∅, ∅)) ∧
  (∀ min_freq top_n,
     calculate_match_score [] ["python"] min_freq top_n = Ok (0%Q, ∅, ∅)).
Proof.
  split.
  - intros. by apply calculate_match_score_empty.
  - intros. apply calculate_match_score_empty. by left.
Qed.

Lemma empty_input_short_circuit_witness :
  calculate_match_score (H := backward_order) ["python"] [] 1 75 = Ok (0%Q, ∅, ∅).
Proof.
  apply (proj1 (empty_input_short_circuit (H := backward_order))).
  right. reflexivity.
Defined.

(** C3. For every input, the returned matched and missing sets are disjoint,
    their union is included in the frequency-filtered keyword set (the one
    computed before the top-N cut), every returned matched keyword occurs in
    [resume_tokens] and no returned missing keyword does. *)
Theorem matched_missing_partition `{SetOrder} resume jd min_freq top_n :
  ∃ score matched missing,
    calculate_match_score resume jd min_freq top_n = Ok (score, matched, missing) ∧
    matched ## missing ∧
    matched ∪ missing ⊆ spec_filtered jd min_freq ∧
    (∀ w, w ∈ matched → w ∈ resume) ∧
    (∀ w, w ∈ missing → w ∉ resume).
Proof.
  destruct (decide (resume = [] ∨ jd = [])) as [He|Hne].
  - exists 0%Q, ∅, ∅. split; [by apply calculate_match_score_empty|]. set_solver.
  - assert (resume ≠ [] ∧ jd ≠ []) as [Hr Hj] by (split; intros ?; apply Hne; auto).
    eexists _, _, _. split; [by apply calculate_match_score_nonempty|].
    pose proof (capped_subseteq resume top_n (spec_matched resume jd min_freq)) as Hma.
    pose proof (capped_subseteq resume top_n (spec_missing resume jd min_freq)) as Hmi.
    split_and!.
    + intros w Hw1%Hma Hw2%Hmi. apply elem_of_spec_matched in Hw1 as [_ ?].
      by apply elem_of_spec_missing in Hw2 as [_ ?].
    + intros w [Hw%Hma|Hw%Hmi]%elem_of_union.
      * by apply elem_of_spec_matched in Hw as [? _].
      * by apply elem_of_spec_missing in Hw as [? _].
    + intros w Hw%Hma. by apply elem_of_spec_matched in Hw as [_ ?].
    + intros w Hw%Hmi. by apply elem_of_spec_missing in Hw as [_ ?].
Qed.

Lemma matched_missing_partition_witness :
  ∃ score matched missing,
    calculate_match_score (H := backward_order)
      ["python"; "developer"; "sql"] ["python"; "sql"; "java"; "python"] 1 1
    = Ok (score, matched, missing) ∧
    matched ## missing ∧ ("developer" ∉ matched ∪ missing).
Proof.
  destruct (matched_missing_partition (H := backward_order)
              ["python"; "developer"; "sql"] ["python"; "sql"; "java"; "python"] 1%Z 1%Z)
    as (score & matched & missing & Hok & Hdisj & Hsub & _).
  exists score, matched, missing. split; [exact Hok|]. split; [exact Hdisj|].
  intros Hin. apply Hsub in Hin. vm_compute in Hin. discriminate Hin.
Defined.

(** C4. For every input with [top_n > 0], each returned set has at most
    [top_n] entries; for non-empty inputs it has [min(top_n, size)] of the
    entries of the untruncated set, and no entry left out has a higher
    frequency in [resume_tokens] than an entry retained. *)
Theorem top_n_truncation `{SetOrder} resume jd min_freq top_n :
  (0 < top_n)%Z →
  ∃ score matched missing,
    calculate_match_score resume jd min_freq top_n = Ok (score, matched, missing) ∧
    (Z.of_nat (size matched) ≤ top_n)%Z ∧
    (Z.of_nat (size missing) ≤ top_n)%Z ∧
    (resume ≠ [] → jd ≠ [] →
       let all_matched := spec_matched resume jd min_freq in
       let all_missing := spec_missing resume jd min_freq in
       matched ⊆ all_matched ∧
       size matched = (Z.to_nat top_n `min` size all_matched)%nat ∧
       (∀ w w', w ∈ matched → w' ∈ all_matched → (w' ∉ matched) →
                (count w' resume ≤ count w resume)%nat) ∧
       missing ⊆ all_missing ∧
       size missing = (Z.to_nat top_n `min` size all_missing)%nat ∧
       (∀ w w', w ∈ missing → w' ∈ all_missing → (w' ∉ missing) →
                (count w' resume ≤ count w resume)%nat)).
Proof.
  intros Hn. destruct (decide (resume = [] ∨ jd = [])) as [He|Hne].
  - exists 0%Q, ∅, ∅. split; [by apply calculate_match_score_empty|].
    rewrite size_empty. split_and!; [lia | lia |]. intros Hr Hj. by destruct He.
  - assert (resume ≠ [] ∧ jd ≠ []) as [Hr Hj] by (split; intros ?; apply Hne; auto).
    eexists _, _, _. split; [by apply calculate_match_score_nonempty|].
    rewrite !capped_size by done. split_and!; [lia | lia |]. intros _ _.
    split_and!; try apply capped_subseteq; try done; intros w w'; by apply capped_ranked.
Qed.

Lemma top_n_truncation_witness :
  (0 < 1)%Z ∧
  ∃ score matched missing,
    calculate_match_score (H := forward_order)
      ["python"; "sql"; "python"] ["python"; "sql"; "java"; "rust"] 1 1
    = Ok (score, matched, missing) ∧
    (Z.of_nat (size matched) ≤ 1)%Z ∧ (Z.of_nat (size missing) ≤ 1)%Z.
Proof.
  assert (H1 : (0 < 1)%Z) by lia. split; [exact H1|].
  destruct (top_n_truncation (H := forward_order)
              ["python"; "sql"; "python"] ["python"; "sql"; "java"; "rust"] 1%Z 1%Z H1)
    as (score & matched & missing & Hok & Hma & Hmi & _).
  exists score, matched, missing. split; [exact Hok|]. split; [exact Hma | exact Hmi].
Defined.

(** C5. For every text, [min_freq] and [top_n], [get_keywords] returns at most
    [top_n] items (none when [top_n] is negative), never a purely numeric
    token, only tokens whose frequency in the token stream is at least
    [min_freq]; its candidates are the first [2 * top_n] tokens of the
    ranking by descending frequency, from which the frequency and numeric
    filters select and of which the first [top_n] are returned.  In
    Scenario C, [get_keywords("cat cat cat dog", 2, 50)] is [["cat"]]. *)
Theorem get_keywords_bounded :
  (∀ env text min_freq top_n,
     ∃ tokens keywords,
       preprocess_text env text = Ok tokens ∧
       get_keywords env text min_freq top_n = Ok keywords ∧
       (Z.of_nat (length keywords) ≤ Z.max 0 top_n)%Z ∧
       (∀ w, w ∈ keywords →
             Str.isdigit w = false ∧ w ∈ tokens ∧
             (min_freq ≤ Z.of_nat (count w tokens))%Z) ∧
       let ranked := sorted_desc snd (Counter tokens) in
       let candidates := take (Z.to_nat (top_n * 2)) ranked in
       ranked ≡ₚ Counter tokens ∧
       StronglySorted (desc snd) ranked ∧
       keywords =
         take (Z.to_nat top_n)
              (filter (λ item : string * nat,
                         (min_freq ≤ Z.of_nat item.2)%Z ∧ ¬ Str.isdigit item.1)
                      candidates).*1) ∧
  (∀ env,
     preprocess_text env (Some "cat cat cat dog") = Ok ["cat"; "cat"; "cat"; "dog"] →
     get_keywords env (Some "cat cat cat dog") 2 50 = Ok ["cat"]).
Proof.
  split.
  - intros env text min_freq top_n.
    destruct (preprocess_text_total env text) as (tokens & Hok & _).
    exists tokens.
    set (ranked := sorted_desc snd (Counter tokens)).
    set (candidates := take (Z.to_nat (top_n * 2)) ranked).
    set (kept := filter (λ item : string * nat,
                   (min_freq ≤ Z.of_nat item.2)%Z ∧ ¬ Str.isdigit item.1) candidates).
    assert (Hget : get_keywords env text min_freq top_n = Ok (take (Z.to_nat top_n) kept.*1)).
    { unfold get_keywords. rewrite Hok. cbn [mbind result_bind].
      case_bool_decide as Ht.
      - subst tokens. unfold kept, candidates, ranked.
        change (sorted_desc snd (Counter [])) with (@nil (string * nat)).
        by rewrite take_nil, filter_nil, fmap_nil, take_nil.
      - rewrite most_common_take. fold ranked candidates kept. f_equal.
        unfold slice_to. destruct (Z.leb_spec 0 top_n) as [|Hneg]; [done|].
        assert (candidates = []) as Hc.
        { unfold candidates. by replace (Z.to_nat (top_n * 2)) with 0%nat by lia. }
        unfold kept. rewrite Hc. by rewrite filter_nil, fmap_nil, !take_nil. }
    exists (take (Z.to_nat top_n) kept.*1).
    split; [done|]. split; [done|]. split; [rewrite length_take; lia|]. split.
    + intros w Hw. apply elem_of_take in Hw as (i & Hw%list_elem_of_lookup_2 & _).
      apply list_elem_of_fmap in Hw as ([w' n] & -> & Hw).
      apply list_elem_of_filter in Hw as [[Hn Hd] Hw]. cbn [fst snd] in *.
      apply elem_of_take in Hw as (j & Hw%list_elem_of_lookup_2 & _).
      unfold ranked in Hw. rewrite sorted_desc_perm in Hw.
      apply Counter_items in Hw as [Hin ->].
      split_and!; [by destruct (Str.isdigit w') | done | done].
    + cbv zeta. split_and!; [apply sorted_desc_perm | apply sorted_desc_sorted | done].
  - intros env Hok. unfold get_keywords. rewrite Hok. by vm_compute.
Qed.

Lemma get_keywords_bounded_witness :
  preprocess_text Missing (Some "cat cat cat dog") = Ok ["cat"; "cat"; "cat"; "dog"] ∧
  get_keywords Missing (Some "cat cat cat dog") 2 50 = Ok ["cat"].
Proof.
  assert (H : preprocess_text Missing (Some "cat cat cat dog")
              = Ok ["cat"; "cat"; "cat"; "dog"]) by reflexivity.
  split; [exact H|]. exact (proj2 get_keywords_bounded Missing H).
Defined.

(** C6. For every text, [preprocess_text] returns tokens of length at least
    1, those of length 1 being digits, and all lower case (the NLTK
    tokenizer, when it is the one that cuts the text, being assumed not to
    change the case); an empty or [None] text gives the empty list; in
    Scenario D, "Hello, World! 123" gives [["hello"; "world"; "123"]] with a
    stopword set that has none of these three words. *)
Theorem preprocess_text_tokens :
  (∀ env text,
     ∃ tokens,
       preprocess_text env text = Ok tokens ∧
       Forall (λ w, (1 ≤ Str.len w)%nat ∧ (Str.len w = 1%nat → Str.isdigit w)) tokens ∧
       (case_preserving env → Forall is_lower tokens)) ∧
  (∀ env, preprocess_text env None = Ok [] ∧ preprocess_text env (Some "") = Ok []) ∧
  (∀ env,
     ("hello" ∉ STOP_WORDS env) → ("world" ∉ STOP_WORDS env) → ("123" ∉ STOP_WORDS env) →
     (word_tokenize env "hello world 123" = Ok ["hello"; "world"; "123"]
      ∨ ∃ e, word_tokenize env "hello world 123" = Raise e) →
     preprocess_text env (Some "Hello, World! 123") = Ok ["hello"; "world"; "123"]).
Proof.
  split_and!.
  - intros env text.
    destruct (preprocess_text_total env text) as (tokens & Hok & Hnil & raw & Htokens & Hraw).
    exists tokens. split; [exact Hok|]. split.
    + rewrite Htokens. apply Forall_forall. intros w [Hk _]%list_elem_of_filter.
      by eapply keep_token_len.
    + intros Hcase. destruct text as [t|]; [|rewrite Hnil by auto; constructor].
      rewrite Htokens. apply Forall_forall. intros w [_ Hw]%list_elem_of_filter.
      revert w Hw. apply Forall_forall.
      pose proof (strip_punctuation_is_lower _ (lower_is_lower t)) as Hlow.
      destruct (Hraw t eq_refl) as [->|[Hready Htok]]; [by apply split_is_lower|].
      destruct env as [lib|]; [|done]. by eapply Hcase.
  - done.
  - intros env H1 H2 H3 Htok. unfold preprocess_text. cbv beta iota zeta.
    change (Str.strip_punctuation (Str.lower "Hello, World! 123")) with "hello world 123".
    change (Str.split "hello world 123") with ["hello"; "world"; "123"].
    assert (Hf : filter (keep_token (STOP_WORDS env)) ["hello"; "world"; "123"]
                 = ["hello"; "world"; "123"]).
    { rewrite !filter_cons, filter_nil.
      rewrite !decide_True; [done | split; [done | left; simpl; lia]..]. }
    destruct (NLTK_RESOURCES_READY env); cbn [negb]; [|by rewrite Hf].
    destruct Htok as [-> | [e ->]]; cbn [try_except mbind result_bind]; by rewrite Hf.
Qed.

Lemma preprocess_text_tokens_witness :
  preprocess_text (Ready english_nltk) (Some "Hello, World! 123")
  = Ok ["hello"; "world"; "123"] ∧
  ∃ tokens, preprocess_text Missing (Some "The Cat Sat") = Ok tokens ∧
            Forall is_lower tokens.
Proof.
  split.
  - apply (proj2 (proj2 preprocess_text_tokens) (Ready english_nltk));
      [by vm_compute | by vm_compute | by vm_compute | left; reflexivity].
  - destruct (proj1 preprocess_text_tokens Missing (Some "The Cat Sat"))
      as (tokens & Hok & _ & Hlow).
    exists tokens. split; [exact Hok | exact (Hlow I)].
Defined.

(** C7. When the NLTK resources are unavailable, [preprocess_text] never
    raises: the stopword set is empty, the tokens are those of a split at
    white space, and a list is returned for every text; in Scenario E,
    "The Cat Sat" gives [["the"; "cat"; "sat"]]. *)
Theorem degraded_mode :
  NLTK_RESOURCES_READY Missing = false ∧
  STOP_WORDS Missing = ∅ ∧
  (∀ text, word_tokenize Missing text = Ok (Str.split text)) ∧
  (∀ text,
     ∃ tokens,
       preprocess_text Missing text = Ok tokens ∧
       tokens = match text with
                | None => []
                | Some t =>
                    filter (λ w, (1 < Str.len w)%nat ∨ Str.isdigit w)
                           (Str.split (Str.strip_punctuation (Str.lower t)))
                end) ∧
  preprocess_text Missing (Some "The Cat Sat") = Ok ["the"; "cat"; "sat"].
Proof.
  split_and!; try done.
  - by intros [].
  - intros [[|c s]|]; eexists; (split; [done|]); try done.
    cbn [STOP_WORDS]. apply list_filter_iff. intros w. apply keep_token_empty.
Qed.

(** C8. For a fixed non-empty filtered keyword set, the score is monotonically
    non-decreasing in the number of matched keywords: of two inputs with the
    same filtered set, the one whose matched set is at least as large has a
    score at least as high. *)
Theorem score_monotone (o1 o2 : SetOrder)
    resume1 jd1 min_freq1 top_n1 resume2 jd2 min_freq2 top_n2 :
  spec_filtered jd1 min_freq1 = spec_filtered jd2 min_freq2 →
  spec_filtered jd1 min_freq1 ≠ ∅ →
  (size (spec_matched resume1 jd1 min_freq1)
   ≤ size (spec_matched resume2 jd2 min_freq2))%nat →
  ∃ score1 matched1 missing1 score2 matched2 missing2,
    calculate_match_score (H := o1) resume1 jd1 min_freq1 top_n1
    = Ok (score1, matched1, missing1) ∧
    calculate_match_score (H := o2) resume2 jd2 min_freq2 top_n2
    = Ok (score2, matched2, missing2) ∧
    (score1 <= score2)%Q.
Proof.
  intros HF HF1 Hsize.
  assert (HF2 : spec_filtered jd2 min_freq2 ≠ ∅) by by rewrite <- HF.
  assert (Hj1 : jd1 ≠ []) by (intros ->; by apply HF1).
  assert (Hj2 : jd2 ≠ []) by (intros ->; by apply HF2).
  destruct (decide (resume1 = [])) as [->|Hr1].
  - exists 0%Q, ∅, ∅. destruct (decide (resume2 = [])) as [->|Hr2].
    + exists 0%Q, ∅, ∅. split_and!; try (apply calculate_match_score_empty; by left). done.
    + eexists _, _, _. split_and!; [apply calculate_match_score_empty; by left
        | by apply calculate_match_score_nonempty |].
      rewrite bool_decide_eq_true_2 by done. apply score_of_nonneg.
  - eexists _, _, _. destruct (decide (resume2 = [])) as [->|Hr2].
    + exists 0%Q, ∅, ∅. split_and!; [by apply calculate_match_score_nonempty
        | apply calculate_match_score_empty; by left |].
      rewrite bool_decide_eq_true_2 by done.
      rewrite spec_matched_nil, size_empty in Hsize.
      assert (size (spec_matched resume1 jd1 min_freq1) = 0%nat) as -> by lia.
      by rewrite score_of_0.
    + eexists _, _, _. split_and!; [by apply calculate_match_score_nonempty..|].
      rewrite !bool_decide_eq_true_2 by done. rewrite <- HF. by apply score_of_mono.
Qed.

Lemma score_monotone_witness :
  ∃ score1 matched1 missing1 score2 matched2 missing2,
    calculate_match_score (H := forward_order)
      ["python"] ["python"; "sql"; "java"] 1 75 = Ok (score1, matched1, missing1) ∧
    calculate_match_score (H := backward_order)
      ["sql"; "python"] ["java"; "python"; "sql"] 1 1 = Ok (score2, matched2, missing2) ∧
    (score1 <= score2)%Q.
Proof.
  apply score_monotone.
  - vm_compute. reflexivity.
  - vm_compute. discriminate.
  - vm_compute. lia.
Defined.

(** C9, as amended.  The score, and the sizes of the returned sets, do not
    depend on the order in which the interpreter iterates over a set; the
    returned sets themselves do not depend on it when [top_n <= 0] or when
    the untruncated set has at most [top_n] elements; otherwise two
    iteration orders can differ only by exchanging keywords that are tied on
    resume-side frequency. *)
Theorem result_up_to_iteration_order (o1 o2 : SetOrder) resume jd min_freq top_n :
  ∃ score matched1 missing1 matched2 missing2,
    calculate_match_score (H := o1) resume jd min_freq top_n
    = Ok (score, matched1, missing1) ∧
    calculate_match_score (H := o2) resume jd min_freq top_n
    = Ok (score, matched2, missing2) ∧
    size matched1 = size matched2 ∧ size missing1 = size missing2 ∧
    ((top_n ≤ 0)%Z ∨ (Z.of_nat (size (spec_matched resume jd min_freq)) ≤ top_n)%Z →
       matched1 = matched2) ∧
    ((top_n ≤ 0)%Z ∨ (Z.of_nat (size (spec_missing resume jd min_freq)) ≤ top_n)%Z →
       missing1 = missing2) ∧
    (∀ w, w ∈ matched1 → (w ∉ matched2) →
       ∃ w', w' ∈ matched2 ∧ (w' ∉ matched1) ∧ count w' resume = count w resume) ∧
    (∀ w, w ∈ missing1 → (w ∉ missing2) →
       ∃ w', w' ∈ missing2 ∧ (w' ∉ missing1) ∧ count w' resume = count w resume).
Proof.
  destruct (decide (resume = [] ∨ jd = [])) as [He|Hne].
  - exists 0%Q, ∅, ∅, ∅, ∅. rewrite !calculate_match_score_empty by done.
    split_and!; try done; intros w Hw; by apply not_elem_of_empty in Hw.
  - assert (resume ≠ [] ∧ jd ≠ []) as [Hr Hj] by (split; intros ?; apply Hne; auto).
    assert (∀ s (oa ob : SetOrder) w,
      w ∈ capped (H := oa) resume top_n s → (w ∉ capped (H := ob) resume top_n s) →
      ∃ w', w' ∈ capped (H := ob) resume top_n s ∧ (w' ∉ capped (H := oa) resume top_n s)
            ∧ count w' resume = count w resume) as Hgen.
    { intros s oa ob w Hw Hw'. destruct (decide (0 < top_n)%Z) as [Hn|Hn];
        [|rewrite !capped_all in * by lia; done].
      destruct (size_eq_exchange (capped (H := oa) resume top_n s)
                                  (capped (H := ob) resume top_n s) w)
        as (w' & Hb & Ha); [by rewrite !capped_size | done | done |].
      exists w'. split_and!; [done..|].
      pose proof (capped_subseteq (H := oa) resume top_n s) as Hsa.
      pose proof (capped_subseteq (H := ob) resume top_n s) as Hsb.
      pose proof (capped_ranked (H := oa) resume top_n s w w' Hn Hw (Hsb _ Hb) Ha).
      pose proof (capped_ranked (H := ob) resume top_n s w' w Hn Hb (Hsa _ Hw) Hw').
      lia. }
    eexists _, _, _, _, _. rewrite !calculate_match_score_nonempty by done.
    split_and!; try done; try apply Hgen.
    + destruct (decide (0 < top_n)%Z); [by rewrite !capped_size|].
      by rewrite !capped_all by lia.
    + destruct (decide (0 < top_n)%Z); [by rewrite !capped_size|].
      by rewrite !capped_all by lia.
    + intros Hc. by rewrite !capped_all.
    + intros Hc. by rewrite !capped_all.
Qed.

Lemma result_up_to_iteration_order_witness :
  ∃ score matched1 missing1 matched2 missing2,
    calculate_match_score (H := forward_order) ["python"] ["java"; "sql"; "python"] 1 1
    = Ok (score, matched1, missing1) ∧
    calculate_match_score (H := backward_order) ["python"] ["java"; "sql"; "python"] 1 1
    = Ok (score, matched2, missing2) ∧
    matched1 = matched2 ∧ size missing1 = size missing2.
Proof.
  destruct (result_up_to_iteration_order forward_order backward_order
              ["python"] ["java"; "sql"; "python"] 1%Z 1%Z)
    as (score & ma1 & mi1 & ma2 & mi2 & H1 & H2 & _ & Hsz & Hma & _).
  exists score, ma1, mi1, ma2, mi2. split_and!; [exact H1 | exact H2 | | exact Hsz].
  apply Hma. right. vm_compute. discriminate.
Defined.

(** C9, counterexample.  The resume ["python"] against the keywords
    ["java"; "sql"] with [top_n = 1]: both keywords are missing and tied at
    frequency 0, and the one retained is the first in the iteration order of
    the set, so two iteration orders return different missing sets. *)
Lemma tie_selection_follows_iteration_order :
  calculate_match_score (H := forward_order) ["python"] ["java"; "sql"] 1 1
  ≠ calculate_match_score (H := backward_order) ["python"] ["java"; "sql"] 1 1.
Proof. vm_compute. discriminate. Qed.

(** C10, as amended.  When [0 < top_n] and the untruncated matched set has
    more than [top_n] elements, the returned score is the one of the
    untruncated matched set, the returned matched set has [top_n] elements,
    the score is at least the score that the returned set would give, and it
    is strictly greater than [|returned matched| / |filtered| * 100] whenever
    the filtered keyword set has fewer than 20000 elements. *)
Theorem score_uses_untruncated_matches `{SetOrder} resume jd min_freq top_n :
  (0 < top_n)%Z →
  (top_n < Z.of_nat (size (spec_matched resume jd min_freq)))%Z →
  let filtered := spec_filtered jd min_freq in
  ∃ score matched missing,
    calculate_match_score resume jd min_freq top_n = Ok (score, matched, missing) ∧
    score = score_of (size (spec_matched resume jd min_freq)) (size filtered) ∧
    Z.of_nat (size matched) = top_n ∧
    (score_of (size matched) (size filtered) <= score)%Q ∧
    ((Z.of_nat (size filtered) < 20000)%Z →
     (100 * (inject_Z (Z.of_nat (size matched)) / inject_Z (Z.of_nat (size filtered)))
      < score)%Q).
Proof.
  intros Hn Hm filtered.
  assert (Hr : resume ≠ []).
  { intros ->. rewrite spec_matched_nil, size_empty in Hm. lia. }
  assert (HF : filtered ≠ ∅).
  { intros E. pose proof (subseteq_size _ _ (spec_matched_subseteq resume jd min_freq)) as Hle.
    fold filtered in Hle. rewrite E, size_empty in Hle. lia. }
  assert (Hj : jd ≠ []) by (intros ->; by apply HF).
  eexists _, _, _. split; [by apply calculate_match_score_nonempty|].
  fold filtered. rewrite bool_decide_eq_true_2 by done.
  rewrite capped_size by done.
  pose proof (subseteq_size _ _ (spec_matched_subseteq resume jd min_freq)) as Hle.
  fold filtered in Hle.
  replace (Z.to_nat top_n `min` size (spec_matched resume jd min_freq))%nat
    with (Z.to_nat top_n) by lia.
  split_and!; [done | lia | apply score_of_mono; lia |].
  intros Hsmall. apply score_of_gt; lia.
Qed.

Lemma score_uses_untruncated_matches_witness :
  (0 < 1)%Z ∧
  ∃ score matched missing,
    calculate_match_score (H := forward_order)
      ["python"; "sql"] ["python"; "sql"; "java"] 1 1 = Ok (score, matched, missing) ∧
    Z.of_nat (size matched) = 1%Z ∧
    (100 * (inject_Z (Z.of_nat (size matched)) / 3) < score)%Q.
Proof.
  assert (H1 : (0 < 1)%Z) by lia. split; [exact H1|].
  assert (H2 : (1 < Z.of_nat (size (spec_matched ["python"; "sql"]
                                      ["python"; "sql"; "java"] 1)))%Z)
    by (vm_compute; reflexivity).
  destruct (score_uses_untruncated_matches (H := forward_order)
              ["python"; "sql"] ["python"; "sql"; "java"] 1%Z 1%Z H1 H2)
    as (score & matched & missing & Hok & _ & Hsz & _ & Hgt).
  exists score, matched, missing. split; [exact Hok|]. split; [exact Hsz|].
  assert (H3 : (Z.of_nat (size (spec_filtered ["python"; "sql"; "java"] 1)) < 20000)%Z)
    by (vm_compute; reflexivity).
  exact (Hgt H3).
Defined.

(** C10, counterexample.  With 50000 distinct keywords, two of which are the
    resume tokens, and [top_n = 1], the score is [round(0.004, 2) = 0.0],
    which is not greater than [1 / 50000 * 100]. *)
Lemma strictness_fails_on_large_keyword_sets :
  let resume := ["k0"; "k1"] in
  let jd := many_keywords (Z.to_nat 50000) in
  ∃ score matched missing,
    calculate_match_score (H := forward_order) resume jd 1 1
    = Ok (score, matched, missing) ∧
    (1 < size (spec_matched resume jd 1))%nat ∧
    ¬ (100 * (inject_Z (Z.of_nat (size matched))
              / inject_Z (Z.of_nat (size (spec_filtered jd 1)))) < score)%Q.
Proof.
  intros resume jd. eexists _, _, _.
  split; [apply calculate_match_score_nonempty; [done|] |].
  { intros E. apply (f_equal length) in E. unfold jd in E.
    rewrite length_many_keywords in E. simpl in E. lia. }
  assert (Hsz : size (spec_filtered jd 1) = Z.to_nat 50000) by apply size_filtered_many.
  assert (HM : spec_matched resume jd 1 = {["k0"; "k1"]}) by (apply matched_many; lia).
  rewrite HM. split; [by vm_compute|].
  rewrite capped_size by done. rewrite bool_decide_eq_true_2.
  - rewrite Hsz. replace (size ({["k0"; "k1"]} : gset string)) with 2%nat by (by vm_compute).
    unfold score_of. rewrite Z2Nat.id by lia. by vm_compute.
  - intros E. rewrite E, size_empty in Hsz. lia.
Qed.
